(** * Field generators of BOUT++ ([src/field/fieldgenerators.hxx])

    A shallow embedding of the expression-tree nodes that [FieldFactory]
    builds from the formulas of an input file, and of their three virtual
    methods [generate], [clone] and [str]. *)

From Stdlib Require Import ZArith List String Ascii Bool Lia.
From Stdlib Require Import Floats DecimalString.
From Stdlib Require Import QArith Qabs Reals Lra Lqa Machin.
From stdpp Require Import base option list gmap.

Local Open Scope Z_scope.

(** ** The scalar type [BoutReal] and the C library

    [BoutReal] is a typedef of [bout_types.hxx]; the header only uses its
    comparisons, its sum and difference with a literal, the conversions from
    and to [int], and the functions of [<cmath>] (the product is used by the
    code of [fieldgenerators.cxx] only). *)

Class BoutRealOps (BoutReal : Type) := {
  real_lt : BoutReal -> BoutReal -> bool;      (* a < b *)
  real_gt : BoutReal -> BoutReal -> bool;      (* a > b *)
  real_add : BoutReal -> BoutReal -> BoutReal; (* a + b *)
  real_sub : BoutReal -> BoutReal -> BoutReal; (* a - b *)
  real_mul : BoutReal -> BoutReal -> BoutReal; (* a * b *)
  real_0_0 : BoutReal;                         (* the literal 0.0 *)
  real_0_5 : BoutReal;                         (* the literal 0.5 *)
  (* static_cast<int>(a): the value truncated toward zero; it is undefined
     when the truncated value is not an int *)
  real_to_int : BoutReal -> option Z;
  (* the implicit conversion of an int result to BoutReal *)
  real_of_int : Z -> BoutReal
}.

(** The functions of [<cmath>] the header names, and the step function of
    [FieldHeaviside], which [fieldgenerators.cxx] defines. *)
Class CMath (BoutReal : Type) := {
  c_sin : BoutReal -> BoutReal;
  c_cos : BoutReal -> BoutReal;
  c_atan : BoutReal -> BoutReal;
  c_atan2 : BoutReal -> BoutReal -> BoutReal;
  heaviside : BoutReal -> BoutReal
}.

(** The range of a 32-bit [int]. *)
Definition INT_MIN : Z := - 2 ^ 31.
Definition INT_MAX : Z := 2 ^ 31 - 1.

Definition in_int_range (z : Z) : bool := (INT_MIN <=? z) && (z <=? INT_MAX).

(** ** Expression trees

    The classes of which the header defines a method; those of which it only
    declares [clone] and [generate] ([FieldSinh], [FieldGaussian],
    [FieldBallooning], [FieldMixmode], ...) are left out.

    A [FieldGeneratorPtr] is a [std::shared_ptr<FieldGenerator>]: [None] is
    [nullptr].  Nodes are never mutated once built, so a shared child is the
    same as a copy of it; the one pointer into memory that others mutate is
    the [BoutReal*] of [FieldValuePtr], an address into a [Memory]. *)

(** An address, and the memory: the cells that hold a [BoutReal]. *)
Abbreviation addr := N (only parsing).
Abbreviation Memory := (gmap N) (only parsing).

Record ParseException := { what : string }.

(** The conversion [%lu] of the exception's format string. *)
Definition fmt_lu (n : nat) : string := NilEmpty.string_of_uint (Nat.to_uint n).

Set Warnings "-register-all".

Section Generators.
Context {BoutReal : Type}.

Definition single_arg_op := BoutReal -> BoutReal.
Definition double_arg_op := BoutReal -> BoutReal -> BoutReal.

Inductive FieldGenerator : Type :=
| FieldValuePtr (ptr : addr)
| FieldSin (gen : option FieldGenerator)
| FieldCos (gen : option FieldGenerator)
| FieldGenOneArg (Op : single_arg_op) (gen : option FieldGenerator)
| FieldGenTwoArg (Op : double_arg_op) (A B : option FieldGenerator)
| FieldATan (A B : option FieldGenerator)
| FieldHeaviside (gen : option FieldGenerator)
| FieldMin (input : list (option FieldGenerator))
| FieldMax (input : list (option FieldGenerator))
| FieldRound (gen : option FieldGenerator).

Definition FieldGeneratorPtr := option FieldGenerator.
Definition nullptr : FieldGeneratorPtr := None.

(** [clone] either returns the new node or throws. *)
Inductive CloneResult : Type :=
| Returned (g : FieldGeneratorPtr)
| Thrown (e : ParseException).

(** [FieldMin() = default] and [FieldMax() = default]: the list member is
    default-initialised, that is empty. *)
Definition FieldMin_default : FieldGenerator := FieldMin [].
Definition FieldMax_default : FieldGenerator := FieldMax [].

Context {ops : BoutRealOps BoutReal} {libm : CMath BoutReal}.

(** *** The loops of [FieldMin::generate] and [FieldMax::generate]

    They are written once, over the monad [M] in which the calls to the
    children's [generate] run, so that the same text gives the value (in
    [option]) and the sequence of calls (in a monad that logs them).
    [mfail] is undefined behaviour: here, [*it] on the end iterator. *)
Section Scan.
Context {M : Type -> Type} `{!MRet M, !MBind M, !MFail M}.
Context {child : Type} (call : child -> M BoutReal).

Fixpoint FieldMin_loop (it : list child) (result : BoutReal) : M BoutReal :=
  match it with
  | [] => mret result
  | c :: it' =>
      val ← call c;
      FieldMin_loop it' (if real_lt val result then val else result)
  end.

Definition FieldMin_generate (input : list child) : M BoutReal :=
  match input with
  | [] => mfail
  | c :: _ => result ← call c; FieldMin_loop input result
  end.

Fixpoint FieldMax_loop (it : list child) (result : BoutReal) : M BoutReal :=
  match it with
  | [] => mret result
  | c :: it' =>
      val ← call c;
      FieldMax_loop it' (if real_gt val result then val else result)
  end.

Definition FieldMax_generate (input : list child) : M BoutReal :=
  match input with
  | [] => mfail
  | c :: _ => result ← call c; FieldMax_loop input result
  end.
End Scan.

(** [static_cast<int>(a)], converted back to the [BoutReal] that
    [FieldRound::generate] returns. *)
Definition cast_int (a : BoutReal) : option BoutReal :=
  real_of_int <$> real_to_int a.

(** Modelled from the spec: [FieldSin::generate] is defined in
    [fieldgenerators.cxx]; the spec has it apply the native sine to the value
    of the child. *)
Definition FieldSin_apply (val : BoutReal) : BoutReal := c_sin val.

(** Modelled from the spec: [FieldCos::generate] is defined in
    [fieldgenerators.cxx]; the spec has it apply the native cosine to the
    value of the child. *)
Definition FieldCos_apply (val : BoutReal) : BoutReal := c_cos val.

(** Modelled from the spec: [FieldHeaviside::generate] is defined in
    [fieldgenerators.cxx]; the spec has it apply the Heaviside step to the
    value of the child. *)
Definition FieldHeaviside_apply (val : BoutReal) : BoutReal := heaviside val.

(** *** [generate]

    The [Context] of a call is passed down unchanged and no node of this
    header looks into it; [mem] is the memory the [FieldValuePtr] nodes point
    into.  [None] is undefined behaviour.  The header defines [generate] for
    [FieldValuePtr], the two templates, [FieldATan], [FieldMin], [FieldMax]
    and [FieldRound]; for [FieldSin], [FieldCos] and [FieldHeaviside] it only
    declares it. *)
Section Generate.
Context {Context : Type}.

Fixpoint generate (g : FieldGenerator) (pos : Context) (mem : Memory BoutReal)
  : option BoutReal :=
  let call (p : FieldGeneratorPtr) : option BoutReal :=
    match p with
    | Some n => generate n pos mem
    | None => None
    end in
  match g with
  | FieldValuePtr ptr => mem !! ptr
  | FieldSin gen => FieldSin_apply <$> call gen
  | FieldCos gen => FieldCos_apply <$> call gen
  | FieldGenOneArg Op gen => Op <$> call gen
  | FieldGenTwoArg Op A B => a ← call A; b ← call B; Some (Op a b)
  | FieldATan A B =>
      match B with
      | None => c_atan <$> call A
      | Some _ => a ← call A; b ← call B; Some (c_atan2 a b)
      end
  | FieldHeaviside gen => FieldHeaviside_apply <$> call gen
  | FieldMin input => FieldMin_generate call input
  | FieldMax input => FieldMax_generate call input
  | FieldRound gen =>
      val ← call gen;
      if real_gt val real_0_0 then cast_int (real_add val real_0_5)
      else cast_int (real_sub val real_0_5)
  end.

(** [p->generate(pos)] through a pointer. *)
Definition generate_ptr (p : FieldGeneratorPtr) (pos : Context)
  (mem : Memory BoutReal) : option BoutReal :=
  match p with
  | Some n => generate n pos mem
  | None => None
  end.
End Generate.

(** *** [clone]

    [args.front()] and [args.back()]; both are only reached once the size of
    [args] has been checked to be at least one. *)
Definition front (args : list FieldGeneratorPtr) : FieldGeneratorPtr :=
  hd nullptr args.
Definition back (args : list FieldGeneratorPtr) : FieldGeneratorPtr :=
  List.last args nullptr.

Definition make_shared (g : FieldGenerator) : CloneResult := Returned (Some g).

Definition throw (msg : string) : CloneResult := Thrown {| what := msg |}.

Definition FieldValuePtr_clone (ptr : addr) (args : list FieldGeneratorPtr)
  : CloneResult :=
  make_shared (FieldValuePtr ptr).

Definition FieldGenOneArg_clone (Op : single_arg_op)
  (args : list FieldGeneratorPtr) : CloneResult :=
  if negb (length args =? 1)%nat then
    throw ("Incorrect number of arguments to function. Expecting 1, got "
           ++ fmt_lu (length args))
  else make_shared (FieldGenOneArg Op (front args)).

Definition FieldGenTwoArg_clone (Op : double_arg_op)
  (args : list FieldGeneratorPtr) : CloneResult :=
  if negb (length args =? 2)%nat then
    throw ("Incorrect number of arguments to function. Expecting 2, got "
           ++ fmt_lu (length args))
  else make_shared (FieldGenTwoArg Op (front args) (back args)).

Definition FieldATan_clone (args : list FieldGeneratorPtr) : CloneResult :=
  if (length args =? 1)%nat then make_shared (FieldATan (front args) nullptr)
  else if (length args =? 2)%nat then
    make_shared (FieldATan (front args) (back args))
  else
    throw ("Incorrect number of arguments to atan function. Expecting 1 or 2, got "
           ++ fmt_lu (length args)).

Definition FieldMin_clone (args : list FieldGeneratorPtr) : CloneResult :=
  if (length args =? 0)%nat then throw "min function must have some inputs"
  else make_shared (FieldMin args).

Definition FieldMax_clone (args : list FieldGeneratorPtr) : CloneResult :=
  if (length args =? 0)%nat then throw "max function must have some inputs"
  else make_shared (FieldMax args).

Definition FieldRound_clone (args : list FieldGeneratorPtr) : CloneResult :=
  if negb (length args =? 1)%nat then throw "round function must have one input"
  else make_shared (FieldRound (front args)).

Section Virtual.
(** What the header only declares: [clone] of [FieldSin], [FieldCos] and
    [FieldHeaviside] (defined in [fieldgenerators.cxx]), and the [str] of the
    base class [FieldGenerator] (defined in [field_factory.hxx]), which the
    classes without a [str] of their own inherit. *)
Variable clone_cxx : FieldGenerator -> list FieldGeneratorPtr -> CloneResult.
Variable FieldGenerator_str : string.

(** The virtual call [g->clone(args)]. *)
Definition clone (g : FieldGenerator) (args : list FieldGeneratorPtr)
  : CloneResult :=
  match g with
  | FieldValuePtr ptr => FieldValuePtr_clone ptr args
  | FieldSin _ | FieldCos _ | FieldHeaviside _ => clone_cxx g args
  | FieldGenOneArg Op _ => FieldGenOneArg_clone Op args
  | FieldGenTwoArg Op _ _ => FieldGenTwoArg_clone Op args
  | FieldATan _ _ => FieldATan_clone args
  | FieldMin _ => FieldMin_clone args
  | FieldMax _ => FieldMax_clone args
  | FieldRound _ => FieldRound_clone args
  end.

(** The virtual call [g->str()]; [None] when a null child is dereferenced. *)
Fixpoint str (g : FieldGenerator) : option string :=
  let call (p : FieldGeneratorPtr) : option string :=
    match p with
    | Some n => str n
    | None => None
    end in
  match g with
  | FieldSin gen => s ← call gen; Some ("sin(" ++ s ++ ")")%string
  | FieldCos gen => s ← call gen; Some ("cos(" ++ s ++ ")")%string
  | FieldGenOneArg _ gen => s ← call gen; Some ("func(" ++ s ++ ")")%string
  | FieldGenTwoArg _ A B =>
      a ← call A; b ← call B; Some ("cos(" ++ a ++ "," ++ b ++ ")")%string
  | FieldHeaviside gen => s ← call gen; Some ("H(" ++ s ++ ")")%string
  | FieldValuePtr _ | FieldATan _ _ | FieldMin _ | FieldMax _ | FieldRound _ =>
      Some FieldGenerator_str
  end.

(** [p->str()] through a pointer. *)
Definition str_ptr (p : FieldGeneratorPtr) : option string :=
  match p with
  | Some n => str n
  | None => None
  end.
End Virtual.

End Generators.

Arguments FieldGenerator : clear implicits.
Arguments FieldGeneratorPtr : clear implicits.
Arguments CloneResult : clear implicits.
Arguments single_arg_op : clear implicits.
Arguments double_arg_op : clear implicits.

(** ** [BoutReal] as [double]

    BOUT++ is built with [BoutReal = double]: IEEE 754 binary64, the
    primitive [float] of Rocq.  The functions of [<cmath>] stay a parameter:
    the C library fixes them only up to their accuracy. *)

Set Warnings "-inexact-float".

(** The integer part of a [spec_float], toward zero; a NaN and the
    infinities have none. *)
Definition SF_trunc (f : spec_float) : option Z :=
  match f with
  | S754_zero _ => Some 0
  | S754_finite s m e =>
      let z := Z.shiftl (Z.pos m) e in Some (if s then - z else z)
  | S754_infinity _ | S754_nan => None
  end.

Definition double_to_int (a : float) : option Z :=
  z ← SF_trunc (Prim2SF a); if in_int_range z then Some z else None.

Definition double_of_int (z : Z) : float :=
  if z <? 0 then (- of_uint63 (Uint63.of_Z (- z)))%float
  else of_uint63 (Uint63.of_Z z).

#[export] Instance double_ops : BoutRealOps float := {
  real_lt a b := (a <? b)%float;
  real_gt a b := (b <? a)%float;
  real_add a b := (a + b)%float;
  real_sub a b := (a - b)%float;
  real_mul a b := (a * b)%float;
  real_0_0 := 0%float;
  real_0_5 := 0.5%float;
  real_to_int := double_to_int;
  real_of_int := double_of_int
}.

(** The rational number a [double] stands for; a NaN and the infinities
    stand for none. *)
Definition SF_value (f : spec_float) : option Q :=
  match f with
  | S754_zero _ => Some 0%Q
  | S754_finite s m e =>
      let n := if s then Z.neg m else Z.pos m in
      Some (match e with
            | Z0 => n # 1
            | Zpos p => (n * 2 ^ Zpos p) # 1
            | Zneg p => n # (2 ^ p)
            end)
  | S754_infinity _ | S754_nan => None
  end.

Definition double_value (a : float) : option Q := SF_value (Prim2SF a).

Definition SF_is_nan (f : spec_float) : bool :=
  match f with
  | S754_nan => true
  | _ => false
  end.

(** [r] is the least (the greatest) of the values [vs], for [<=] on
    [double]. *)
Definition double_minimum (r : float) (vs : list float) : Prop :=
  In r vs /\ Forall (fun v => (r <=? v)%float = true) vs.
Definition double_maximum (r : float) (vs : list float) : Prop :=
  In r vs /\ Forall (fun v => (v <=? r)%float = true) vs.

(** [z] is [q] rounded to the nearest integer, a tie going away from
    zero. *)
Definition rounds_half_away_from_zero (q : Q) (z : Z) : Prop :=
  (Qabs (inject_Z z - q) < 1 # 2)%Q
  \/ (Qabs (inject_Z z - q) == 1 # 2 /\ Qabs q < Qabs (inject_Z z))%Q.

(** ** [BoutReal] as the real numbers

    The exact arithmetic that [double] approximates, with the functions that
    the ones of [<cmath>] approximate. *)

Definition R_lt (a b : R) : bool := if Rlt_dec a b then true else false.

Definition R_trunc (a : R) : Z :=
  if Rle_dec 0 a then Int_part a else (- Int_part (- a))%Z.

Definition R_to_int (a : R) : option Z :=
  if in_int_range (R_trunc a) then Some (R_trunc a) else None.

(** The angle of the point [(x, y)], in the interval from [-PI] to [PI]. *)
Definition Ratan2 (y x : R) : R :=
  if Rlt_dec 0 x then atan (y / x)
  else if Rlt_dec x 0 then
    if Rle_dec 0 y then (atan (y / x) + PI)%R else (atan (y / x) - PI)%R
  else if Rlt_dec 0 y then (PI / 2)%R
  else if Rlt_dec y 0 then (- PI / 2)%R
  else 0%R.

#[export] Instance R_ops : BoutRealOps R := {
  real_lt a b := R_lt a b;
  real_gt a b := R_lt b a;
  real_add := Rplus;
  real_sub := Rminus;
  real_mul := Rmult;
  real_0_0 := 0%R;
  real_0_5 := (1 / 2)%R;
  real_to_int := R_to_int;
  real_of_int := IZR
}.

#[export] Instance R_libm : CMath R := {
  c_sin := sin;
  c_cos := cos;
  c_atan := atan;
  c_atan2 := Ratan2;
  (* the step, taken to be 0 at 0; nothing below depends on it *)
  heaviside a := if R_lt 0 a then 1%R else 0%R
}.

(** ** The calls a scan makes

    A monad that logs calls: a run gives the value and the children called,
    in the order of the calls. *)

Definition Logged (A : Type) : Type := option (A * list nat).

#[export] Instance Logged_ret : MRet Logged := fun A a => Some (a, []).
#[export] Instance Logged_bind : MBind Logged := fun A B f m =>
  match m with
  | Some (a, l1) =>
      match f a with
      | Some (b, l2) => Some (b, l1 ++ l2)
      | None => None
      end
  | None => None
  end.
#[export] Instance Logged_fail : MFail Logged := fun A _ => None.

(** The elements of a list with their positions, counted from [i]. *)
Fixpoint numbered {A : Type} (i : nat) (l : list A) : list (nat * A) :=
  match l with
  | [] => []
  | a :: l' => (i, a) :: numbered (S i) l'
  end.

(** The call [call c] of the child numbered [i], logged. *)
Definition logged {A child : Type} (call : child -> option A)
  (c : nat * child) : Logged A :=
  match call c.2 with
  | Some v => Some (v, [c.1])
  | None => None
  end.

Section Scans.
Context {BoutReal : Type} {ops : BoutRealOps BoutReal}.

(** One turn of each loop, and the whole scan as a fold over the values of
    the children. *)
Definition min_step (result val : BoutReal) : BoutReal :=
  if real_lt val result then val else result.
Definition max_step (result val : BoutReal) : BoutReal :=
  if real_gt val result then val else result.

Definition scan (step : BoutReal -> BoutReal -> BoutReal) (vs : list BoutReal)
  : option BoutReal :=
  match vs with
  | [] => None
  | v :: _ => Some (fold_left step vs v)
  end.
End Scans.

(** ** The caller of [generate]

    The owner of the cells may store into them between two calls. *)
Section Callers.
Context {BoutReal : Type} {ops : BoutRealOps BoutReal} {libm : CMath BoutReal}.
Context {Context : Type}.

Inductive Action : Type :=
| Store (ptr : addr) (val : BoutReal)
| Generate (g : FieldGenerator BoutReal) (pos : Context).

Fixpoint run (prog : list Action) (mem : Memory BoutReal)
  : list (option BoutReal) :=
  match prog with
  | [] => []
  | Store ptr val :: prog' => run prog' (<[ptr := val]> mem)
  | Generate g pos :: prog' => generate g pos mem :: run prog' mem
  end.
End Callers.

(** ** The text of an exception *)

(** [part] occurs in [msg]. *)
Fixpoint contains (part msg : string) : bool :=
  String.prefix part msg
  || match msg with
     | EmptyString => false
     | String _ msg' => contains part msg'
     end.

(** ** Data of the examples *)

(** Modelled from the spec: the four coordinates of a [Context] (the class
    is declared in [field_factory.hxx]). *)
Record Coordinates : Type := {
  coord_x : float;
  coord_y : float;
  coord_z : float;
  coord_t : float
}.

Definition origin : Coordinates :=
  {| coord_x := 0%float; coord_y := 0%float;
     coord_z := 0%float; coord_t := 0%float |}.

(** A child that reads the cell [ptr], and the memory whose cells
    [0, 1, ...] hold the values [vs]. *)
Definition cell {BoutReal : Type} (ptr : addr) : FieldGeneratorPtr BoutReal :=
  Some (FieldValuePtr ptr).
Arguments cell {BoutReal} ptr%_N.

Fixpoint cells_from {BoutReal : Type} (ptr : addr) (vs : list BoutReal)
  : Memory BoutReal :=
  match vs with
  | [] => ∅
  | v :: vs' => <[ptr := v]> (cells_from (N.succ ptr) vs')
  end.

Definition cells {BoutReal : Type} (vs : list BoutReal) : Memory BoutReal :=
  cells_from 0%N vs.

(** ** The shape of a tree *)

Section Shape.
Context {BoutReal : Type}.

(** The children of a node, as the list that [clone] takes. *)
Definition children (g : FieldGenerator BoutReal)
  : list (FieldGeneratorPtr BoutReal) :=
  match g with
  | FieldValuePtr _ => []
  | FieldSin gen | FieldCos gen | FieldHeaviside gen
  | FieldGenOneArg _ gen | FieldRound gen => [gen]
  | FieldGenTwoArg _ A B => [A; B]
  | FieldATan A B =>
      match B with
      | None => [A]
      | Some _ => [A; B]
      end
  | FieldMin input | FieldMax input => input
  end.

(** The classes of which the header defines [clone], and of which it
    defines [generate]: all but [FieldSin], [FieldCos], [FieldHeaviside]. *)
Definition defined_in_header (g : FieldGenerator BoutReal) : bool :=
  match g with
  | FieldSin _ | FieldCos _ | FieldHeaviside _ => false
  | _ => true
  end.

(** The sizes of the list of arguments on which [clone] does not throw. *)
Definition accepts (g : FieldGenerator BoutReal) (n : nat) : bool :=
  match g with
  | FieldValuePtr _ => true
  | FieldGenOneArg _ _ | FieldRound _ => (n =? 1)%nat
  | FieldGenTwoArg _ _ _ => (n =? 2)%nat
  | FieldATan _ _ => (n =? 1)%nat || (n =? 2)%nat
  | FieldMin _ | FieldMax _ => negb (n =? 0)%nat
  | FieldSin _ | FieldCos _ | FieldHeaviside _ => false
  end.

(** Two nodes of the same class: the same instance of a template, the same
    cell for a [FieldValuePtr]. *)
Definition same_class (g g' : FieldGenerator BoutReal) : Prop :=
  match g, g' with
  | FieldValuePtr ptr, FieldValuePtr ptr' => ptr = ptr'
  | FieldGenOneArg Op _, FieldGenOneArg Op' _ => Op = Op'
  | FieldGenTwoArg Op _ _, FieldGenTwoArg Op' _ _ => Op = Op'
  | FieldATan _ _, FieldATan _ _ => True
  | FieldMin _, FieldMin _ => True
  | FieldMax _, FieldMax _ => True
  | FieldRound _, FieldRound _ => True
  | _, _ => False
  end.

(** The cells that the [FieldValuePtr] nodes of a tree point to. *)
Fixpoint pointers (g : FieldGenerator BoutReal) : list addr :=
  let of_ptr (p : FieldGeneratorPtr BoutReal) : list addr :=
    match p with
    | Some n => pointers n
    | None => []
    end in
  match g with
  | FieldValuePtr ptr => [ptr]
  | FieldSin gen | FieldCos gen | FieldHeaviside gen
  | FieldGenOneArg _ gen | FieldRound gen => of_ptr gen
  | FieldGenTwoArg _ A B | FieldATan A B => of_ptr A ++ of_ptr B
  | FieldMin input | FieldMax input => flat_map of_ptr input
  end.

Definition pointers_ptr (p : FieldGeneratorPtr BoutReal) : list addr :=
  match p with
  | Some n => pointers n
  | None => []
  end.

(** Every node of the tree is of a class of which the header defines
    [generate]. *)
Fixpoint header_tree (g : FieldGenerator BoutReal) : bool :=
  let of_ptr (p : FieldGeneratorPtr BoutReal) : bool :=
    match p with
    | Some n => header_tree n
    | None => true
    end in
  match g with
  | FieldValuePtr _ => true
  | FieldSin _ | FieldCos _ | FieldHeaviside _ => false
  | FieldGenOneArg _ gen | FieldRound gen => of_ptr gen
  | FieldGenTwoArg _ A B | FieldATan A B => of_ptr A && of_ptr B
  | FieldMin input | FieldMax input => forallb of_ptr input
  end.

Definition header_tree_ptr (p : FieldGeneratorPtr BoutReal) : bool :=
  match p with
  | Some n => header_tree n
  | None => true
  end.

(** No pointer that [generate] dereferences is null and no [FieldMin] or
    [FieldMax] is without children; the second child of a [FieldATan] may be
    null. *)
Fixpoint well_formed (g : FieldGenerator BoutReal) : bool :=
  let of_ptr (p : FieldGeneratorPtr BoutReal) : bool :=
    match p with
    | Some n => well_formed n
    | None => false
    end in
  match g with
  | FieldValuePtr _ => true
  | FieldSin gen | FieldCos gen | FieldHeaviside gen
  | FieldGenOneArg _ gen | FieldRound gen => of_ptr gen
  | FieldGenTwoArg _ A B => of_ptr A && of_ptr B
  | FieldATan A B =>
      of_ptr A && match B with Some n => well_formed n | None => true end
  | FieldMin input | FieldMax input =>
      negb (length input =? 0)%nat && forallb of_ptr input
  end.

Definition well_formed_ptr (p : FieldGeneratorPtr BoutReal) : bool :=
  match p with
  | Some n => well_formed n
  | None => false
  end.

(** No node of the tree is a [FieldRound]. *)
Fixpoint round_free (g : FieldGenerator BoutReal) : bool :=
  let of_ptr (p : FieldGeneratorPtr BoutReal) : bool :=
    match p with
    | Some n => round_free n
    | None => true
    end in
  match g with
  | FieldValuePtr _ => true
  | FieldRound _ => false
  | FieldSin gen | FieldCos gen | FieldHeaviside gen
  | FieldGenOneArg _ gen => of_ptr gen
  | FieldGenTwoArg _ A B | FieldATan A B => of_ptr A && of_ptr B
  | FieldMin input | FieldMax input => forallb of_ptr input
  end.

Definition round_free_ptr (p : FieldGeneratorPtr BoutReal) : bool :=
  match p with
  | Some n => round_free n
  | None => true
  end.

(** [P] holds of the node that the pointer [p] points to, if to any. *)
Definition on_child (P : FieldGenerator BoutReal -> Prop)
  (p : FieldGeneratorPtr BoutReal) : Prop :=
  match p with
  | Some n => P n
  | None => True
  end.
End Shape.

(** ** What a tree reads and what it needs

    The properties of a tree that are proved by induction on it. *)

Section TreeProperties.
Context {BoutReal : Type} {ops : BoutRealOps BoutReal}.
Context {libm : CMath BoutReal} {Context : Type}.
Implicit Types (g : FieldGenerator BoutReal).
Implicit Types (pos : Context) (mem : Memory BoutReal).

(** The value of [g] is the same at [pos] in [mem] and at [pos'] in
    [mem'], when the two memories agree on the cells of [g]. *)
Definition frame_at pos pos' mem mem' g : Prop :=
  header_tree g = true ->
  (forall ptr, In ptr (pointers g) -> mem !! ptr = mem' !! ptr) ->
  generate g pos mem = generate g pos' mem'.

(** A value of [g] needs a tree without a null pointer to dereference and
    live cells. *)
Definition needs_at pos mem g : Prop :=
  header_tree g = true ->
  is_Some (generate g pos mem) ->
  well_formed g = true
  /\ Forall (fun ptr => is_Some (mem !! ptr)) (pointers g).

(** Without a [FieldRound], these are enough for [g] to have a value. *)
Definition returns_at pos mem g : Prop :=
  header_tree g = true -> round_free g = true -> well_formed g = true ->
  Forall (fun ptr => is_Some (mem !! ptr)) (pointers g) ->
  is_Some (generate g pos mem).
End TreeProperties.

(** ** Ties and NaNs among the values of a scan *)

(** [r] is the first of the least (of the greatest) of the values [vs]:
    the values before it are strictly greater (less), the ones after it at
    least (at most) [r]. *)
Definition first_least (r : float) (vs : list float) : Prop :=
  exists pre post,
    vs = pre ++ r :: post
    /\ Forall (fun v => (r <? v)%float = true) pre
    /\ Forall (fun v => (r <=? v)%float = true) post.

Definition first_greatest (r : float) (vs : list float) : Prop :=
  exists pre post,
    vs = pre ++ r :: post
    /\ Forall (fun v => (v <? r)%float = true) pre
    /\ Forall (fun v => (v <=? r)%float = true) post.

Definition not_nan (v : float) : bool := negb (PrimFloat.is_nan v).

(** The child [p] with its value negated: a [FieldGenOneArg] on the
    negation. *)
Definition negated (p : FieldGeneratorPtr float) : FieldGeneratorPtr float :=
  Some (FieldGenOneArg PrimFloat.opp p).

(** * Properties *)

(** ** The two scans *)

Section ScanFacts.
Context {BoutReal : Type} {ops : BoutRealOps BoutReal}.
Context {child : Type} (call : child -> option BoutReal).

Lemma logged_Some (i : nat) (c : child) (v : BoutReal) :
  call c = Some v -> logged call (i, c) = Some (v, [i]).
Proof. unfold logged. cbn [fst snd]. intros ->. reflexivity. Qed.

(** Both loops are handled alike: run the list of children against the list
    of their values. *)
Ltac loop_induction Hvs :=
  apply mapM_Some in Hvs;
  induction Hvs as [|c v it vs Hc _ IH]; intros;
  [ reflexivity
  | cbn; try rewrite (logged_Some _ c v Hc); try rewrite Hc; cbn;
    rewrite IH; reflexivity ].

Lemma FieldMin_loop_values it vs :
  mapM call it = Some vs ->
  forall result,
    FieldMin_loop call it result = Some (fold_left min_step vs result).
Proof. intros Hvs. loop_induction Hvs. Qed.

Lemma FieldMax_loop_values it vs :
  mapM call it = Some vs ->
  forall result,
    FieldMax_loop call it result = Some (fold_left max_step vs result).
Proof. intros Hvs. loop_induction Hvs. Qed.

Lemma FieldMin_loop_logged it vs :
  mapM call it = Some vs ->
  forall i result,
    FieldMin_loop (logged call) (numbered i it) result
    = Some (fold_left min_step vs result, seq i (length it)).
Proof. intros Hvs. loop_induction Hvs. Qed.

Lemma FieldMax_loop_logged it vs :
  mapM call it = Some vs ->
  forall i result,
    FieldMax_loop (logged call) (numbered i it) result
    = Some (fold_left max_step vs result, seq i (length it)).
Proof. intros Hvs. loop_induction Hvs. Qed.

Lemma FieldMin_generate_values input vs :
  mapM call input = Some vs -> FieldMin_generate call input = scan min_step vs.
Proof.
  intros Hvs. pose proof (FieldMin_loop_values _ _ Hvs) as Hloop.
  apply mapM_Some in Hvs. destruct Hvs as [|c v it vs Hc _]; [reflexivity|].
  specialize (Hloop v). cbn in Hloop |- *. rewrite Hc in Hloop |- *.
  exact Hloop.
Qed.

Lemma FieldMax_generate_values input vs :
  mapM call input = Some vs -> FieldMax_generate call input = scan max_step vs.
Proof.
  intros Hvs. pose proof (FieldMax_loop_values _ _ Hvs) as Hloop.
  apply mapM_Some in Hvs. destruct Hvs as [|c v it vs Hc _]; [reflexivity|].
  specialize (Hloop v). cbn in Hloop |- *. rewrite Hc in Hloop |- *.
  exact Hloop.
Qed.

(** *** Where the scans are defined *)

Lemma FieldMin_loop_is_Some it : forall result,
  is_Some (FieldMin_loop call it result) ->
  Forall (fun c => is_Some (call c)) it.
Proof.
  induction it as [|c it IH]; intros result Hsome; [constructor|].
  cbn in Hsome. destruct (call c) as [v|] eqn:Hc.
  - constructor; [rewrite Hc; eauto|]. exact (IH _ Hsome).
  - destruct Hsome; discriminate.
Qed.

Lemma FieldMax_loop_is_Some it : forall result,
  is_Some (FieldMax_loop call it result) ->
  Forall (fun c => is_Some (call c)) it.
Proof.
  induction it as [|c it IH]; intros result Hsome; [constructor|].
  cbn in Hsome. destruct (call c) as [v|] eqn:Hc.
  - constructor; [rewrite Hc; eauto|]. exact (IH _ Hsome).
  - destruct Hsome; discriminate.
Qed.

Lemma scan_is_Some step (vs : list BoutReal) :
  vs <> [] -> is_Some (scan step vs).
Proof. destruct vs; [congruence|]. cbn. eauto. Qed.

Lemma FieldMin_generate_is_Some input :
  is_Some (FieldMin_generate call input)
  <-> input <> [] /\ Forall (fun c => is_Some (call c)) input.
Proof.
  split.
  - intros Hsome. destruct input as [|c it]; [destruct Hsome; discriminate|].
    split; [discriminate|]. unfold FieldMin_generate in Hsome.
    destruct (call c) as [v|]; [|destruct Hsome; discriminate].
    exact (FieldMin_loop_is_Some _ _ Hsome).
  - intros [Hne Hall]. apply (mapM_is_Some_2 call) in Hall as [vs Hvs].
    rewrite (FieldMin_generate_values _ _ Hvs). apply scan_is_Some.
    apply length_mapM in Hvs. destruct input, vs; try discriminate; congruence.
Qed.

Lemma FieldMax_generate_is_Some input :
  is_Some (FieldMax_generate call input)
  <-> input <> [] /\ Forall (fun c => is_Some (call c)) input.
Proof.
  split.
  - intros Hsome. destruct input as [|c it]; [destruct Hsome; discriminate|].
    split; [discriminate|]. unfold FieldMax_generate in Hsome.
    destruct (call c) as [v|]; [|destruct Hsome; discriminate].
    exact (FieldMax_loop_is_Some _ _ Hsome).
  - intros [Hne Hall]. apply (mapM_is_Some_2 call) in Hall as [vs Hvs].
    rewrite (FieldMax_generate_values _ _ Hvs). apply scan_is_Some.
    apply length_mapM in Hvs. destruct input, vs; try discriminate; congruence.
Qed.

End ScanFacts.

Section GenerateFacts.
Context {BoutReal : Type} {ops : BoutRealOps BoutReal} {libm : CMath BoutReal}.
Context {Context : Type}.
Implicit Types (pos : Context) (mem : Memory BoutReal).
Implicit Types (input args : list (FieldGeneratorPtr BoutReal)).

Lemma min_step_same (v : BoutReal) : min_step v v = v.
Proof. unfold min_step. destruct (real_lt v v); reflexivity. Qed.

Lemma max_step_same (v : BoutReal) : max_step v v = v.
Proof. unfold max_step. destruct (real_gt v v); reflexivity. Qed.

(** [generate] of a [FieldMin] or [FieldMax] whose children have the values
    [vs] is the fold of the loop's turn over [vs], from the first value. *)
Lemma generate_FieldMin_values input pos mem vs :
  mapM (fun p => generate_ptr p pos mem) input = Some vs ->
  generate (FieldMin input) pos mem = scan min_step vs.
Proof.
  intros Hvs. pose proof (FieldMin_loop_values _ _ _ Hvs) as Hloop.
  apply mapM_Some in Hvs. destruct Hvs as [|c v it vs Hc _]; [reflexivity|].
  specialize (Hloop v). cbn in Hloop |- *.
  change (match c with Some n => generate n pos mem | None => None end)
    with (generate_ptr c pos mem) in *.
  rewrite Hc in Hloop |- *. exact Hloop.
Qed.

Lemma generate_FieldMax_values input pos mem vs :
  mapM (fun p => generate_ptr p pos mem) input = Some vs ->
  generate (FieldMax input) pos mem = scan max_step vs.
Proof.
  intros Hvs. pose proof (FieldMax_loop_values _ _ _ Hvs) as Hloop.
  apply mapM_Some in Hvs. destruct Hvs as [|c v it vs Hc _]; [reflexivity|].
  specialize (Hloop v). cbn in Hloop |- *.
  change (match c with Some n => generate n pos mem | None => None end)
    with (generate_ptr c pos mem) in *.
  rewrite Hc in Hloop |- *. exact Hloop.
Qed.

Lemma FieldMin_generate_logged_values input pos mem vs :
  mapM (fun p => generate_ptr p pos mem) input = Some vs ->
  FieldMin_generate (logged (fun p => generate_ptr p pos mem))
    (numbered 0 input)
  = match input with
    | [] => None
    | _ => (fun r => (r, 0%nat :: seq 0 (length input))) <$> scan min_step vs
    end.
Proof.
  intros Hvs. pose proof (FieldMin_loop_logged _ _ _ Hvs 0%nat) as Hloop.
  apply mapM_Some in Hvs. destruct Hvs as [|c v it vs Hc _]; [reflexivity|].
  unfold FieldMin_generate. cbn [numbered].
  rewrite (logged_Some (fun p => generate_ptr p pos mem) 0%nat c v Hc).
  cbn [mbind Logged_bind]. cbn [numbered] in Hloop. rewrite (Hloop v).
  reflexivity.
Qed.

Lemma FieldMax_generate_logged_values input pos mem vs :
  mapM (fun p => generate_ptr p pos mem) input = Some vs ->
  FieldMax_generate (logged (fun p => generate_ptr p pos mem))
    (numbered 0 input)
  = match input with
    | [] => None
    | _ => (fun r => (r, 0%nat :: seq 0 (length input))) <$> scan max_step vs
    end.
Proof.
  intros Hvs. pose proof (FieldMax_loop_logged _ _ _ Hvs 0%nat) as Hloop.
  apply mapM_Some in Hvs. destruct Hvs as [|c v it vs Hc _]; [reflexivity|].
  unfold FieldMax_generate. cbn [numbered].
  rewrite (logged_Some (fun p => generate_ptr p pos mem) 0%nat c v Hc).
  cbn [mbind Logged_bind]. cbn [numbered] in Hloop. rewrite (Hloop v).
  reflexivity.
Qed.

(** C1. A call of [generate] on a [FieldMin] or [FieldMax] with children
    calls [generate] of the first child twice, once for the seed and once in
    the first turn of the loop, and of every later child once, from left to
    right: not every child exactly once.  The value is the one of the scan
    that calls each child once. *)
Theorem FieldMin_FieldMax_generate_calls input pos mem vs :
  input <> [] ->
  mapM (fun p => generate_ptr p pos mem) input = Some vs ->
  (exists r,
      generate (FieldMin input) pos mem = Some r
      /\ scan min_step vs = Some r
      /\ FieldMin_generate (logged (fun p => generate_ptr p pos mem))
           (numbered 0 input)
         = Some (r, 0%nat :: seq 0 (length input)))
  /\ (exists r,
      generate (FieldMax input) pos mem = Some r
      /\ scan max_step vs = Some r
      /\ FieldMax_generate (logged (fun p => generate_ptr p pos mem))
           (numbered 0 input)
         = Some (r, 0%nat :: seq 0 (length input))).
Proof.
  intros Hne Hvs.
  rewrite (generate_FieldMin_values _ _ _ _ Hvs).
  rewrite (generate_FieldMax_values _ _ _ _ Hvs).
  rewrite (FieldMin_generate_logged_values _ _ _ _ Hvs).
  rewrite (FieldMax_generate_logged_values _ _ _ _ Hvs).
  pose proof (length_mapM _ _ _ Hvs) as Hlen.
  destruct input as [|c input]; [congruence|].
  destruct vs as [|v vs]; [discriminate|].
  split; eexists; repeat split; reflexivity.
Qed.

End GenerateFacts.

(** The children with the values 3, 1, 2: the first one is called twice. *)
Example FieldMin_generate_calls_3_1_2 (libm : CMath float) :
  FieldMin_generate
    (logged (fun p => generate_ptr p origin (cells [3; 1; 2]%float)))
    (numbered 0 [cell 0; cell 1; cell 2])
  = Some (1%float, [0; 0; 1; 2]%nat).
Proof. vm_compute. reflexivity. Qed.

Lemma FieldMin_FieldMax_generate_calls_witness :
  [cell (BoutReal := float) 0; cell 1; cell 2] <> []
  /\ forall libm : CMath float,
       mapM (fun p => generate_ptr p origin (cells [3; 1; 2]%float))
         [cell 0; cell 1; cell 2]
       = Some [3; 1; 2]%float
       /\ (exists r,
              generate (FieldMin [cell 0; cell 1; cell 2]) origin
                (cells [3; 1; 2]%float) = Some r
              /\ scan min_step [3; 1; 2]%float = Some r
              /\ FieldMin_generate
                   (logged (fun p =>
                              generate_ptr p origin (cells [3; 1; 2]%float)))
                   (numbered 0 [cell 0; cell 1; cell 2])
                 = Some (r, [0; 0; 1; 2]%nat))
       /\ (exists r,
              generate (FieldMax [cell 0; cell 1; cell 2]) origin
                (cells [3; 1; 2]%float) = Some r
              /\ scan max_step [3; 1; 2]%float = Some r
              /\ FieldMax_generate
                   (logged (fun p =>
                              generate_ptr p origin (cells [3; 1; 2]%float)))
                   (numbered 0 [cell 0; cell 1; cell 2])
                 = Some (r, [0; 0; 1; 2]%nat)).
Proof.
  split; [discriminate|]. intros libm. split; [reflexivity|].
  apply (FieldMin_FieldMax_generate_calls (libm := libm)
           [cell 0; cell 1; cell 2] origin (cells [3; 1; 2]%float)
           [3; 1; 2]%float); [discriminate|reflexivity].
Defined.

Section NodeFacts.
Context {BoutReal : Type} {ops : BoutRealOps BoutReal} {libm : CMath BoutReal}.
Context {Context : Type}.
Implicit Types (pos : Context) (mem : Memory BoutReal).
Implicit Types (input args : list (FieldGeneratorPtr BoutReal)).
Variable clone_cxx :
  FieldGenerator BoutReal -> list (FieldGeneratorPtr BoutReal)
  -> CloneResult BoutReal.

(** C9. [generate] of a [FieldMin] or [FieldMax] has a result exactly when
    the list of children is not empty and every child has one: on the empty
    list the first thing it does is to dereference [input.begin()].  The
    default constructors give the empty list; [clone] only returns nodes
    whose list is not empty. *)
Theorem FieldMin_FieldMax_generate_needs_children input pos mem :
  (is_Some (generate (FieldMin input) pos mem)
   <-> input <> []
       /\ Forall (fun p => is_Some (generate_ptr p pos mem)) input)
  /\ (is_Some (generate (FieldMax input) pos mem)
      <-> input <> []
          /\ Forall (fun p => is_Some (generate_ptr p pos mem)) input)
  /\ generate FieldMin_default pos mem = None
  /\ generate FieldMax_default pos mem = None
  /\ (forall args g,
         clone clone_cxx (FieldMin input) args = Returned g ->
         args <> [] /\ g = Some (FieldMin args))
  /\ (forall args g,
         clone clone_cxx (FieldMax input) args = Returned g ->
         args <> [] /\ g = Some (FieldMax args)).
Proof.
  split; [exact (FieldMin_generate_is_Some _ input)|].
  split; [exact (FieldMax_generate_is_Some _ input)|].
  do 2 (split; [reflexivity|]).
  split; intros args g; cbn; unfold FieldMin_clone, FieldMax_clone;
    destruct args; cbn; intros Hclone; try discriminate;
    injection Hclone as <-; (split; [discriminate|reflexivity]).
Qed.

(** C10. [clone] of a [FieldGenTwoArg] on a list of two makes the first
    element the operand [A] and the second the operand [B]: when [generate]
    of the first returns [va] and [generate] of the second returns [vb],
    [generate] of the new node returns [Op va vb], the operands in this
    order. *)
Theorem FieldGenTwoArg_clone_keeps_the_order
  (Op : double_arg_op BoutReal) (A0 B0 a b : FieldGeneratorPtr BoutReal)
  pos mem (va vb : BoutReal) :
  generate_ptr a pos mem = Some va ->
  generate_ptr b pos mem = Some vb ->
  exists g : FieldGenerator BoutReal,
    clone clone_cxx (FieldGenTwoArg Op A0 B0) [a; b] = Returned (Some g)
    /\ g = FieldGenTwoArg Op a b
    /\ generate g pos mem = Some (Op va vb).
Proof.
  intros Ha Hb. exists (FieldGenTwoArg Op a b).
  split; [reflexivity|]. split; [reflexivity|].
  cbn [generate]. fold (generate_ptr a pos mem) (generate_ptr b pos mem).
  rewrite Ha, Hb. reflexivity.
Qed.

(** C7. [generate] of a [FieldValuePtr] is the content of its cell at the
    time of the call: a store into the cell between two calls shows in the
    second.  [clone] returns a [FieldValuePtr] on the same cell whatever the
    list of arguments. *)
Theorem FieldValuePtr_reads_its_cell (ptr : addr) pos mem args
  (v w : BoutReal) :
  generate (FieldValuePtr ptr) pos mem = mem !! ptr
  /\ run [Generate (FieldValuePtr ptr) pos; Store ptr v;
          Generate (FieldValuePtr ptr) pos; Store ptr w;
          Generate (FieldValuePtr ptr) pos] mem
     = [mem !! ptr; Some v; Some w]
  /\ clone clone_cxx (FieldValuePtr ptr) args
     = Returned (Some (FieldValuePtr ptr)).
Proof.
  repeat split. cbn. rewrite !lookup_insert_eq. reflexivity.
Qed.

End NodeFacts.

(** The difference of the children with the values 3 and 1 is 2, not -2. *)
Lemma FieldGenTwoArg_clone_keeps_the_order_witness :
  (forall libm : CMath float,
      generate_ptr (cell 0) origin (cells [3; 1]%float) = Some 3%float)
  /\ (forall libm : CMath float,
         generate_ptr (cell 1) origin (cells [3; 1]%float) = Some 1%float)
  /\ (3 - 1)%float = 2%float
  /\ (1 - 3)%float = (-2)%float
  /\ forall (libm : CMath float)
            (clone_cxx : FieldGenerator float -> list (FieldGeneratorPtr float)
                         -> CloneResult float),
     exists g : FieldGenerator float,
       clone clone_cxx (FieldGenTwoArg PrimFloat.sub nullptr nullptr)
         [cell 0; cell 1]
       = Returned (Some g)
       /\ g = FieldGenTwoArg PrimFloat.sub (cell 0) (cell 1)
       /\ generate g origin (cells [3; 1]%float) = Some (3 - 1)%float.
Proof.
  split; [intros libm; vm_compute; reflexivity|].
  split; [intros libm; vm_compute; reflexivity|].
  split; [vm_compute; reflexivity|]. split; [vm_compute; reflexivity|].
  intros libm clone_cxx.
  apply (FieldGenTwoArg_clone_keeps_the_order (libm := libm) clone_cxx
           PrimFloat.sub nullptr nullptr (cell 0) (cell 1) origin
           (cells [3; 1]%float) 3%float 1%float);
    vm_compute; reflexivity.
Defined.

Lemma FieldMin_FieldMax_generate_needs_children_witness :
  (forall clone_cxx,
      clone (BoutReal := float) clone_cxx FieldMin_default [cell 0; cell 1]
      = Returned (Some (FieldMin [cell 0; cell 1])))
  /\ forall (libm : CMath float)
            (clone_cxx : FieldGenerator float -> list (FieldGeneratorPtr float)
                         -> CloneResult float),
       [cell (BoutReal := float) 0; cell 1] <> []
       /\ Some (FieldMin [cell (BoutReal := float) 0; cell 1])
          = Some (FieldMin [cell 0; cell 1]).
Proof.
  split; [reflexivity|]. intros libm clone_cxx.
  apply (proj1 (proj2 (proj2 (proj2 (proj2
           (FieldMin_FieldMax_generate_needs_children (libm := libm)
              clone_cxx [] origin (cells [3; 1]%float))))))
           [cell 0; cell 1] (Some (FieldMin [cell 0; cell 1]))).
  reflexivity.
Defined.

(** ** The text of the exceptions *)

Lemma prefix_empty (s : string) : String.prefix "" s = true.
Proof. destruct s; reflexivity. Qed.

Lemma prefix_append_l (p a b : string) :
  String.prefix p a = true -> String.prefix p (a ++ b) = true.
Proof.
  revert a. induction p as [|c p IH]; intros a; [intros _; apply prefix_empty|].
  destruct a as [|c' a]; simpl; [discriminate|].
  destruct (ascii_dec c c'); [apply IH|discriminate].
Qed.

Lemma contains_append_l (part a b : string) :
  contains part a = true -> contains part (a ++ b) = true.
Proof.
  induction a as [|c a IH]; simpl.
  - rewrite orb_false_r. intros Hp. destruct part; [|discriminate].
    destruct b; reflexivity.
  - intros [Hp|Ha]%orb_true_iff.
    + pose proof (prefix_append_l part (String c a) b Hp) as Hp'.
      simpl in Hp'. rewrite Hp'. reflexivity.
    + rewrite (IH Ha). apply orb_true_r.
Qed.

Lemma contains_append_r (part a b : string) :
  contains part b = true -> contains part (a ++ b) = true.
Proof.
  intros Hb. induction a as [|c a IH]; simpl; [exact Hb|].
  rewrite IH. apply orb_true_r.
Qed.

Lemma contains_self (part : string) : contains part part = true.
Proof.
  assert (String.prefix part part = true) as Hp.
  { induction part as [|a p IH]; simpl; [reflexivity|].
    destruct (ascii_dec a a); [exact IH|congruence]. }
  destruct part; simpl in *; [reflexivity|rewrite Hp; reflexivity].
Qed.

Section CloneFacts.
Context {BoutReal : Type}.
Implicit Types (args : list (FieldGeneratorPtr BoutReal)).
Variable clone_cxx :
  FieldGenerator BoutReal -> list (FieldGeneratorPtr BoutReal)
  -> CloneResult BoutReal.

(** C3, as the code has it. [clone] of a [FieldGenOneArg], [FieldGenTwoArg],
    [FieldATan] or [FieldRound] on a list of the wrong size throws a
    [ParseException].  The text of the two templates gives the expected and
    the actual count and no name of a function; the text of [FieldATan]
    gives its name and both counts; the text of [FieldRound] gives its name
    and the expected count, and not the actual one. *)
Theorem clone_wrong_size_throws args :
  let n := length args in
  (forall Op gen, n <> 1%nat ->
     exists msg,
       clone clone_cxx (FieldGenOneArg Op gen) args = throw msg
       /\ msg = ("Incorrect number of arguments to function. Expecting 1, got "
                 ++ fmt_lu n)%string
       /\ contains "Expecting 1," msg = true
       /\ contains ("got " ++ fmt_lu n) msg = true)
  /\ (forall Op A B, n <> 2%nat ->
     exists msg,
       clone clone_cxx (FieldGenTwoArg Op A B) args = throw msg
       /\ msg = ("Incorrect number of arguments to function. Expecting 2, got "
                 ++ fmt_lu n)%string
       /\ contains "Expecting 2," msg = true
       /\ contains ("got " ++ fmt_lu n) msg = true)
  /\ (forall A B, n <> 1%nat -> n <> 2%nat ->
     exists msg,
       clone clone_cxx (FieldATan A B) args = throw msg
       /\ msg = ("Incorrect number of arguments to atan function. Expecting 1 or 2, got "
                 ++ fmt_lu n)%string
       /\ contains "atan function" msg = true
       /\ contains "Expecting 1 or 2," msg = true
       /\ contains ("got " ++ fmt_lu n) msg = true)
  /\ (forall gen, n <> 1%nat ->
     exists msg,
       clone clone_cxx (FieldRound gen) args = throw msg
       /\ msg = "round function must have one input"%string
       /\ contains "round function" msg = true
       /\ contains "one input" msg = true).
Proof.
  intros n. repeat split; intros.
  - eexists. split; [|split; [reflexivity|]].
    + cbn. unfold FieldGenOneArg_clone. fold n.
      destruct (Nat.eqb_spec n 1); [congruence|reflexivity].
    + split; [apply contains_append_l; reflexivity|].
      apply (contains_append_r _
               "Incorrect number of arguments to function. Expecting 1, ").
      apply contains_self.
  - eexists. split; [|split; [reflexivity|]].
    + cbn. unfold FieldGenTwoArg_clone. fold n.
      destruct (Nat.eqb_spec n 2); [congruence|reflexivity].
    + split; [apply contains_append_l; reflexivity|].
      apply (contains_append_r _
               "Incorrect number of arguments to function. Expecting 2, ").
      apply contains_self.
  - eexists. split; [|split; [reflexivity|]].
    + cbn. unfold FieldATan_clone. fold n.
      destruct (Nat.eqb_spec n 1); [congruence|].
      destruct (Nat.eqb_spec n 2); [congruence|reflexivity].
    + split; [apply contains_append_l; reflexivity|].
      split; [apply contains_append_l; reflexivity|].
      apply (contains_append_r _
               "Incorrect number of arguments to atan function. Expecting 1 or 2, ").
      apply contains_self.
  - eexists. split; [|split; [reflexivity|split; reflexivity]].
    cbn. unfold FieldRound_clone. fold n.
    destruct (Nat.eqb_spec n 1); [congruence|reflexivity].
Qed.

End CloneFacts.

(** C3, as the spec has it, fails: the text that [FieldRound::clone] throws
    on the empty list does not give the actual count, 0, and the text that a
    [FieldGenOneArg] throws is the same for [sqrt] and for [fabs]: it names
    neither. *)
Lemma FieldRound_clone_text_without_count :
  FieldRound_clone (BoutReal := float) []
  = throw "round function must have one input"
  /\ contains (fmt_lu 0) "round function must have one input" = false
  /\ FieldGenOneArg_clone PrimFloat.sqrt []
     = FieldGenOneArg_clone PrimFloat.abs [].
Proof. repeat split. Qed.

Lemma clone_wrong_size_throws_witness :
  length [cell (BoutReal := float) 0; cell 1] <> 1%nat
  /\ forall clone_cxx, exists msg,
       clone clone_cxx (FieldRound nullptr) [cell (BoutReal := float) 0; cell 1]
       = throw msg
       /\ msg = "round function must have one input"%string
       /\ contains "round function" msg = true
       /\ contains "one input" msg = true.
Proof.
  split; [cbn; lia|]. intros clone_cxx.
  apply (clone_wrong_size_throws clone_cxx [cell 0; cell 1]).
  cbn; lia.
Defined.

(** ** The order of [double] *)

Ltac compare_cases :=
  repeat match goal with
  | |- context [(?a ?= ?b)%Z] => destruct (Z.compare_spec a b)
  | |- context [PosDef.Pos.compare_cont Eq ?a ?b] =>
      change (PosDef.Pos.compare_cont Eq a b) with (Pos.compare a b);
      destruct (Pos.compare_spec a b)
  end.

Ltac SF_cases :=
  unfold SFleb, SFltb, SFcompare;
  repeat match goal with
  | f : spec_float |- _ => destruct f as [[]|[]| |[] ? ?]
  end;
  cbn; try discriminate; try reflexivity; try congruence;
  compare_cases; cbn; try discriminate; try reflexivity; try congruence;
  intros; try lia.

Lemma SFleb_refl (a : spec_float) : SF_is_nan a = false -> SFleb a a = true.
Proof. SF_cases. Qed.

Lemma SFleb_total (a b : spec_float) :
  SF_is_nan a = false -> SF_is_nan b = false ->
  SFltb a b = false -> SFleb b a = true.
Proof. SF_cases. Qed.

Lemma SFltb_leb_trans (a b c : spec_float) :
  SFltb a b = true -> SFleb b c = true -> SFleb a c = true.
Proof. SF_cases. Qed.

Lemma SFleb_ltb_trans (a b c : spec_float) :
  SFleb a b = true -> SFltb b c = true -> SFleb a c = true.
Proof. SF_cases. Qed.

Lemma is_nan_Prim2SF (a : float) : PrimFloat.is_nan a = SF_is_nan (Prim2SF a).
Proof.
  unfold PrimFloat.is_nan. rewrite FloatAxioms.eqb_spec.
  generalize (Prim2SF a). intros f. unfold SFeqb, SFcompare.
  destruct f as [[]|[]| |[] m e]; cbn; try reflexivity;
    rewrite Z.compare_refl;
    change (PosDef.Pos.compare_cont Eq m m) with (Pos.compare m m);
    rewrite Pos.compare_refl; reflexivity.
Qed.

Section DoubleOrder.
Local Open Scope float_scope.
Implicit Types a b c : float.

Lemma double_leb_refl a : PrimFloat.is_nan a = false -> (a <=? a) = true.
Proof.
  rewrite is_nan_Prim2SF, FloatAxioms.leb_spec. apply SFleb_refl.
Qed.

Lemma double_leb_total a b :
  PrimFloat.is_nan a = false -> PrimFloat.is_nan b = false ->
  (a <? b) = false -> (b <=? a) = true.
Proof.
  rewrite !is_nan_Prim2SF, FloatAxioms.leb_spec, FloatAxioms.ltb_spec.
  apply SFleb_total.
Qed.

Lemma double_ltb_leb_trans a b c :
  (a <? b) = true -> (b <=? c) = true -> (a <=? c) = true.
Proof.
  rewrite !FloatAxioms.leb_spec, FloatAxioms.ltb_spec. apply SFltb_leb_trans.
Qed.

Lemma double_leb_ltb_trans a b c :
  (a <=? b) = true -> (b <? c) = true -> (a <=? c) = true.
Proof.
  rewrite !FloatAxioms.leb_spec, FloatAxioms.ltb_spec. apply SFleb_ltb_trans.
Qed.

(** The invariant of the loop of [FieldMin::generate]: [result] is the
    least of the values seen. *)
Lemma fold_min_step_minimum (rest : list float) : forall seen result,
  double_minimum result seen ->
  PrimFloat.is_nan result = false ->
  Forall (fun v => PrimFloat.is_nan v = false) rest ->
  double_minimum (fold_left min_step rest result) (seen ++ rest).
Proof.
  induction rest as [|val rest IH]; intros seen result [Hin Hle] Hres Hnan.
  - rewrite app_nil_r. split; assumption.
  - apply Forall_cons in Hnan as [Hval Hnan].
    change (seen ++ val :: rest)%list with (seen ++ [val] ++ rest)%list.
    rewrite app_assoc. cbn [fold_left]. apply IH; [|  |exact Hnan].
    + unfold min_step. cbn. destruct (val <? result) eqn:Hlt.
      * split; [apply in_or_app; right; left; reflexivity|].
        apply Forall_app. split.
        -- eapply Forall_impl; [exact Hle|]. cbn. intros v Hv.
           exact (double_ltb_leb_trans _ _ _ Hlt Hv).
        -- constructor; [apply double_leb_refl, Hval|constructor].
      * split; [apply in_or_app; left; exact Hin|].
        apply Forall_app. split; [exact Hle|].
        constructor; [|constructor].
        apply double_leb_total; assumption.
    + unfold min_step. cbn. destruct (val <? result); assumption.
Qed.

Lemma fold_max_step_maximum (rest : list float) : forall seen result,
  double_maximum result seen ->
  PrimFloat.is_nan result = false ->
  Forall (fun v => PrimFloat.is_nan v = false) rest ->
  double_maximum (fold_left max_step rest result) (seen ++ rest).
Proof.
  induction rest as [|val rest IH]; intros seen result [Hin Hle] Hres Hnan.
  - rewrite app_nil_r. split; assumption.
  - apply Forall_cons in Hnan as [Hval Hnan].
    change (seen ++ val :: rest)%list with (seen ++ [val] ++ rest)%list.
    rewrite app_assoc. cbn [fold_left]. apply IH; [|  |exact Hnan].
    + unfold max_step. cbn. destruct (result <? val) eqn:Hlt.
      * split; [apply in_or_app; right; left; reflexivity|].
        apply Forall_app. split.
        -- eapply Forall_impl; [exact Hle|]. cbn. intros v Hv.
           exact (double_leb_ltb_trans _ _ _ Hv Hlt).
        -- constructor; [apply double_leb_refl, Hval|constructor].
      * split; [apply in_or_app; left; exact Hin|].
        apply Forall_app. split; [exact Hle|].
        constructor; [|constructor].
        apply double_leb_total; assumption.
    + unfold max_step. cbn. destruct (result <? val); assumption.
Qed.

Lemma scan_min_step_minimum (vs : list float) :
  vs <> [] -> Forall (fun v => PrimFloat.is_nan v = false) vs ->
  exists r, scan min_step vs = Some r /\ double_minimum r vs.
Proof.
  destruct vs as [|v vs]; [congruence|]. intros _ [Hv Hnan]%Forall_cons.
  eexists. split; [reflexivity|]. cbn [fold_left]. rewrite min_step_same.
  apply (fold_min_step_minimum vs [v] v); [|exact Hv|exact Hnan].
  split; [left; reflexivity|]. constructor; [|constructor].
  apply double_leb_refl, Hv.
Qed.

Lemma scan_max_step_maximum (vs : list float) :
  vs <> [] -> Forall (fun v => PrimFloat.is_nan v = false) vs ->
  exists r, scan max_step vs = Some r /\ double_maximum r vs.
Proof.
  destruct vs as [|v vs]; [congruence|]. intros _ [Hv Hnan]%Forall_cons.
  eexists. split; [reflexivity|]. cbn [fold_left]. rewrite max_step_same.
  apply (fold_max_step_maximum vs [v] v); [|exact Hv|exact Hnan].
  split; [left; reflexivity|]. constructor; [|constructor].
  apply double_leb_refl, Hv.
Qed.
End DoubleOrder.

Section DoubleScan.
Context {libm : CMath float} {Context : Type}.

Lemma generate_FieldMin_single (p : FieldGeneratorPtr float) (pos : Context)
  (mem : Memory float) :
  generate (FieldMin [p]) pos mem = generate_ptr p pos mem.
Proof.
  destruct (generate_ptr p pos mem) as [v|] eqn:Hv.
  - rewrite (generate_FieldMin_values [p] pos mem [v]).
    + cbn. rewrite min_step_same. reflexivity.
    + cbn. rewrite Hv. reflexivity.
  - cbn. change (match p with Some n => generate n pos mem | None => None end)
      with (generate_ptr p pos mem). rewrite Hv. reflexivity.
Qed.

Lemma generate_FieldMax_single (p : FieldGeneratorPtr float) (pos : Context)
  (mem : Memory float) :
  generate (FieldMax [p]) pos mem = generate_ptr p pos mem.
Proof.
  destruct (generate_ptr p pos mem) as [v|] eqn:Hv.
  - rewrite (generate_FieldMax_values [p] pos mem [v]).
    + cbn. rewrite max_step_same. reflexivity.
    + cbn. rewrite Hv. reflexivity.
  - cbn. change (match p with Some n => generate n pos mem | None => None end)
      with (generate_ptr p pos mem). rewrite Hv. reflexivity.
Qed.

(** C2, as the code has it. When the children of a [FieldMin] or [FieldMax]
    are at least one and none of their values is a NaN, [generate] returns
    the least, respectively the greatest, of the values; on one child it
    returns the value of the child; on the values 3, 1, 2 it returns 1 and
    3; [clone] on the empty list throws a [ParseException]. *)
Theorem FieldMin_FieldMax_generate_least_greatest :
  (forall (input : list (FieldGeneratorPtr float)) (pos : Context)
          (mem : Memory float) (vs : list float),
      input <> [] ->
      mapM (fun p => generate_ptr p pos mem) input = Some vs ->
      Forall (fun v => PrimFloat.is_nan v = false) vs ->
      (exists r, generate (FieldMin input) pos mem = Some r
                 /\ double_minimum r vs)
      /\ (exists r, generate (FieldMax input) pos mem = Some r
                    /\ double_maximum r vs))
  /\ (forall (p : FieldGeneratorPtr float) (pos : Context) (mem : Memory float),
         generate (FieldMin [p]) pos mem = generate_ptr p pos mem
         /\ generate (FieldMax [p]) pos mem = generate_ptr p pos mem)
  /\ (forall pos : Context,
         generate (FieldMin [cell 0; cell 1; cell 2]) pos
           (cells [3; 1; 2]%float) = Some 1%float
         /\ generate (FieldMax [cell 0; cell 1; cell 2]) pos
              (cells [3; 1; 2]%float) = Some 3%float)
  /\ (forall clone_cxx (input : list (FieldGeneratorPtr float)),
         clone clone_cxx (FieldMin input) []
         = throw "min function must have some inputs"
         /\ clone clone_cxx (FieldMax input) []
            = throw "max function must have some inputs").
Proof.
  split; [|split; [|split]].
  - intros input pos mem vs Hne Hvs Hnan.
    rewrite (generate_FieldMin_values _ _ _ _ Hvs).
    rewrite (generate_FieldMax_values _ _ _ _ Hvs).
    assert (vs <> []) as Hne'.
    { apply length_mapM in Hvs.
      destruct input, vs; try discriminate; congruence. }
    split; [apply scan_min_step_minimum|apply scan_max_step_maximum];
      assumption.
  - intros p pos mem. split;
      [apply generate_FieldMin_single|apply generate_FieldMax_single].
  - intros pos. split; vm_compute; reflexivity.
  - intros clone_cxx input. split; reflexivity.
Qed.
End DoubleScan.

(** C2, as the spec has it, fails on a NaN: of the children with the values
    NaN and 1, [FieldMin] returns the NaN when it comes first and 1 when it
    comes second, and neither is at most every value. *)
Lemma FieldMin_generate_with_a_nan :
  (forall libm : CMath float,
      generate (FieldMin [cell 0; cell 1]) origin (cells [nan; 1]%float)
      = Some nan
      /\ generate (FieldMin [cell 0; cell 1]) origin (cells [1; nan]%float)
         = Some 1%float)
  /\ ~ double_minimum nan [nan; 1]%float
  /\ ~ double_minimum 1%float [1; nan]%float.
Proof.
  split; [intros libm; split; vm_compute; reflexivity|].
  split; intros [_ Hle]; apply Forall_cons in Hle as [H1 Hle];
    apply Forall_cons in Hle as [H2 _]; vm_compute in H1, H2; discriminate.
Qed.

Lemma FieldMin_FieldMax_generate_least_greatest_witness :
  [cell (BoutReal := float) 0; cell 1; cell 2] <> []
  /\ Forall (fun v => PrimFloat.is_nan v = false) [3; 1; 2]%float
  /\ forall libm : CMath float,
       mapM (fun p => generate_ptr p origin (cells [3; 1; 2]%float))
         [cell 0; cell 1; cell 2]
       = Some [3; 1; 2]%float
       /\ (exists r, generate (FieldMin [cell 0; cell 1; cell 2]) origin
                       (cells [3; 1; 2]%float) = Some r
                     /\ double_minimum r [3; 1; 2]%float)
       /\ (exists r, generate (FieldMax [cell 0; cell 1; cell 2]) origin
                       (cells [3; 1; 2]%float) = Some r
                     /\ double_maximum r [3; 1; 2]%float).
Proof.
  split; [discriminate|]. split; [repeat constructor|]. intros libm.
  split; [reflexivity|].
  apply (proj1 (FieldMin_FieldMax_generate_least_greatest
                  (libm := libm) (Context := Coordinates))
           [cell 0; cell 1; cell 2] origin (cells [3; 1; 2]%float)
           [3; 1; 2]%float).
  - discriminate.
  - reflexivity.
  - repeat constructor.
Defined.

(** ** The value of a [double] and its integer part *)

Lemma Qabs_half_away_pos (q : Q) (z : Z) :
  (0 < q)%Q -> (inject_Z z <= q + (1 # 2))%Q ->
  (q + (1 # 2) < inject_Z z + 1)%Q ->
  rounds_half_away_from_zero q z.
Proof.
  intros Hq Hlo Hhi. unfold rounds_half_away_from_zero.
  destruct (Qlt_le_dec (inject_Z z - q) (1 # 2)) as [Hlt|Hge].
  - left. apply Qabs_Qlt_condition. split; Lqa.lra.
  - right. assert (inject_Z z - q == 1 # 2)%Q as Heq by Lqa.lra. split.
    + rewrite Qabs_pos; Lqa.lra.
    + rewrite !Qabs_pos; Lqa.lra.
Qed.

Lemma Qabs_half_away_neg (q : Q) (z : Z) :
  (q <= 0)%Q -> (inject_Z z - 1 < q - (1 # 2))%Q ->
  (q - (1 # 2) <= inject_Z z)%Q ->
  rounds_half_away_from_zero q z.
Proof.
  intros Hq Hlo Hhi. unfold rounds_half_away_from_zero.
  destruct (Qlt_le_dec (q - inject_Z z) (1 # 2)) as [Hlt|Hge].
  - left. apply Qabs_Qlt_condition. split; Lqa.lra.
  - right. assert (inject_Z z - q == - (1 # 2))%Q as Heq by Lqa.lra. split.
    + rewrite Qabs_neg; Lqa.lra.
    + rewrite !Qabs_neg; Lqa.lra.
Qed.

(** The integer part lies between the value and zero, less than one away
    from the value. *)
Lemma shiftl_neg_div (m p : positive) :
  Z.shiftl (Z.pos m) (Z.neg p) = Z.pos m / Z.pos (2 ^ p).
Proof.
  change (Z.shiftl (Z.pos m) (Z.neg p)) with (Z.shiftr (Z.pos m) (Z.pos p)).
  rewrite Z.shiftr_div_pow2 by lia. rewrite Pos2Z.inj_pow. reflexivity.
Qed.

Lemma SF_trunc_value (f : spec_float) (z : Z) (q : Q) :
  SF_trunc f = Some z -> SF_value f = Some q ->
  ((0 <= q)%Q -> (inject_Z z <= q)%Q /\ (q < inject_Z z + 1)%Q)
  /\ ((q <= 0)%Q -> (inject_Z z - 1 < q)%Q /\ (q <= inject_Z z)%Q).
Proof.
  destruct f as [s|s| |s m e]; cbn [SF_trunc SF_value]; try discriminate.
  - intros [= <-] [= <-]. unfold Qle, Qlt; cbn. lia.
  - intros [= <-] [= <-]. destruct e as [|p|p].
    + rewrite Z.shiftl_0_r.
      destruct s; unfold Qle, Qlt; cbn; lia.
    + rewrite Z.shiftl_mul_pow2 by lia.
      generalize (2 ^ Z.pos p). intros d.
      destruct s; unfold Qle, Qlt; cbn; lia.
    + rewrite shiftl_neg_div.
      pose proof (Z.mul_div_le (Z.pos m) (Z.pos (2 ^ p)) eq_refl) as Hlo.
      pose proof (Z.mul_succ_div_gt (Z.pos m) (Z.pos (2 ^ p)) eq_refl) as Hhi.
      revert Hlo Hhi. generalize (Z.pos m / Z.pos (2 ^ p)). intros k Hlo Hhi.
      destruct s; unfold Qle, Qlt; cbn; lia.
Qed.

Lemma double_gt_0_value (v : float) (q : Q) :
  double_value v = Some q ->
  ((0 <? v)%float = true -> (0 < q)%Q)
  /\ ((0 <? v)%float = false -> (q <= 0)%Q).
Proof.
  unfold double_value. rewrite FloatAxioms.ltb_spec.
  change (Prim2SF 0) with (S754_zero false).
  destruct (Prim2SF v) as [s|s| |s m e]; cbn; try discriminate.
  - intros [= <-]. split; [discriminate|]. intros _. Lqa.lra.
  - intros [= <-]. destruct s; cbn; (split; try discriminate);
      intros _; destruct e; unfold Qle, Qlt; cbn; lia.
Qed.

Section DoubleRound.
Context {libm : CMath float} {Context : Type}.
Local Open Scope float_scope.

Lemma generate_FieldRound (gen : FieldGeneratorPtr float) (pos : Context)
  (mem : Memory float) :
  generate (FieldRound gen) pos mem
  = (val ← generate_ptr gen pos mem;
     cast_int (if 0 <? val then val + 0.5 else val - 0.5)).
Proof.
  cbn. destruct gen as [n|]; [|reflexivity]. cbn.
  destruct (generate n pos mem) as [val|]; [|reflexivity]. cbn.
  destruct (0 <? val); reflexivity.
Qed.

(** What [FieldRound::generate] computes. It adds 0.5 to a value of the
    child that is greater than 0.0 and subtracts 0.5 from any other, in
    [double] arithmetic, and truncates the result toward zero to an [int]
    (there is no result when that is not in the range of [int]).  Whenever
    the sum or difference is exact, this is the value of the child rounded
    to the nearest integer, a tie going away from zero.  2.4 gives 2, 2.5
    gives 3, -2.5 gives -3 and -2.4 gives -2. *)
Theorem FieldRound_generate_adds_half_and_truncates :
  (forall (gen : FieldGeneratorPtr float) (pos : Context) (mem : Memory float)
          (v : float),
      generate_ptr gen pos mem = Some v ->
      generate (FieldRound gen) pos mem
      = cast_int (if 0 <? v then v + 0.5 else v - 0.5)
      /\ forall (q qs : Q) (z : Z),
          double_value v = Some q ->
          double_value (if 0 <? v then v + 0.5 else v - 0.5) = Some qs ->
          (qs == q + (if 0 <? v then 1 # 2 else - (1 # 2)))%Q ->
          double_to_int (if 0 <? v then v + 0.5 else v - 0.5) = Some z ->
          generate (FieldRound gen) pos mem = Some (double_of_int z)
          /\ rounds_half_away_from_zero q z)
  /\ (forall pos : Context,
         generate (FieldRound (cell 0)) pos (cells [2.4]) = Some 2
         /\ generate (FieldRound (cell 0)) pos (cells [2.5]) = Some 3
         /\ generate (FieldRound (cell 0)) pos (cells [-2.5]) = Some (-3)
         /\ generate (FieldRound (cell 0)) pos (cells [-2.4]) = Some (-2)).
Proof.
  split.
  - intros gen pos mem v Hv. rewrite generate_FieldRound, Hv.
    cbn [mbind option_bind].
    split; [reflexivity|]. intros q qs z Hq Hqs Hexact Hz.
    unfold cast_int. cbn [real_to_int double_ops]. rewrite Hz.
    split; [reflexivity|].
    unfold double_to_int in Hz.
    destruct (SF_trunc (Prim2SF (if 0 <? v then v + 0.5 else v - 0.5)))
      as [z'|] eqn:Htrunc; [|discriminate].
    cbn in Hz. destruct (in_int_range z'); [|discriminate]. injection Hz as ->.
    destruct (SF_trunc_value _ _ _ Htrunc Hqs) as [Hpos Hneg].
    destruct (double_gt_0_value v q Hq) as [Hgt Hle].
    destruct (0 <? v).
    + specialize (Hgt eq_refl).
      destruct Hpos as [Hlo Hhi]; [Lqa.lra|].
      apply Qabs_half_away_pos; Lqa.lra.
    + specialize (Hle eq_refl).
      destruct Hneg as [Hlo Hhi]; [Lqa.lra|].
      apply Qabs_half_away_neg; Lqa.lra.
  - intros pos. repeat split; vm_compute; reflexivity.
Qed.

End DoubleRound.

(** C4. [FieldRound], documented in the header as the generator to round to
    the nearest integer, does not do so just below one half: the greatest
    [double] less than 0.5 plus 0.5 is 1 in [double] arithmetic, so
    [generate] returns 1 where the value, less than one half, rounds to 0;
    and it returns -1 on the opposite value. *)
Theorem FieldRound_generate_below_one_half :
  (forall libm : CMath float,
      generate (FieldRound (cell 0)) origin (cells [0.49999999999999994%float])
      = Some 1%float)
  /\ (forall libm : CMath float,
         generate (FieldRound (cell 0)) origin
           (cells [(-0.49999999999999994)%float])
         = Some (-1)%float)
  /\ (0.49999999999999994 + 0.5)%float = 1%float
  /\ double_value 0.49999999999999994%float
     = Some (9007199254740991 # 18014398509481984)
  /\ double_value (-0.49999999999999994)%float
     = Some (-9007199254740991 # 18014398509481984)
  /\ (0 < 9007199254740991 # 18014398509481984 < 1 # 2)%Q
  /\ rounds_half_away_from_zero (9007199254740991 # 18014398509481984) 0
  /\ ~ rounds_half_away_from_zero (9007199254740991 # 18014398509481984) 1
  /\ rounds_half_away_from_zero (-9007199254740991 # 18014398509481984) 0
  /\ ~ rounds_half_away_from_zero
        (-9007199254740991 # 18014398509481984) (-1).
Proof.
  split; [intros libm; vm_compute; reflexivity|].
  split; [intros libm; vm_compute; reflexivity|].
  split; [vm_compute; reflexivity|].
  split; [vm_compute; reflexivity|]. split; [vm_compute; reflexivity|].
  split; [split; reflexivity|].
  split; [left; reflexivity|].
  split; [intros [H|[H _]]; vm_compute in H; discriminate|].
  split; [left; reflexivity|].
  intros [H|[H _]]; vm_compute in H; discriminate.
Qed.

(** Beyond the range of [int], and on a NaN, the cast has no result. *)
Example FieldRound_generate_out_of_int_range (libm : CMath float) :
  generate (FieldRound (cell 0)) origin (cells [3e9%float]) = None
  /\ generate (FieldRound (cell 0)) origin (cells [nan]) = None.
Proof. split; vm_compute; reflexivity. Qed.

Lemma FieldRound_generate_adds_half_and_truncates_witness :
  double_value 2.5%float = Some (5629499534213120 # 2251799813685248)
  /\ double_value (2.5 + 0.5)%float
     = Some (6755399441055744 # 2251799813685248)
  /\ ((6755399441055744 # 2251799813685248)
      == (5629499534213120 # 2251799813685248) + (1 # 2))%Q
  /\ double_to_int (2.5 + 0.5)%float = Some 3
  /\ forall libm : CMath float,
       generate_ptr (cell 0) origin (cells [2.5%float]) = Some 2.5%float
       /\ generate (FieldRound (cell 0)) origin (cells [2.5%float])
          = Some (double_of_int 3)
       /\ rounds_half_away_from_zero (5629499534213120 # 2251799813685248) 3.
Proof.
  split; [vm_compute; reflexivity|]. split; [vm_compute; reflexivity|].
  split; [reflexivity|]. split; [vm_compute; reflexivity|].
  intros libm. split; [reflexivity|].
  apply (proj2 (proj1 (FieldRound_generate_adds_half_and_truncates
                         (libm := libm) (Context := Coordinates))
                  (cell 0) origin (cells [2.5%float]) 2.5%float eq_refl)
           (5629499534213120 # 2251799813685248)
           (6755399441055744 # 2251799813685248) 3);
    vm_compute; reflexivity.
Defined.

(** ** The arctangent *)

Lemma PI_4_bounds : (0.7853981 < PI / 4 < 0.7853982)%R.
Proof.
  pose proof (PI_2_3_7_ineq 3) as H.
  unfold sum_f_R0, tg_alt, PI_2_3_7_tg, Ratan_seq in H.
  simpl in H. Lra.lra.
Qed.

Lemma Ratan2_1_1 : Ratan2 1 1 = (PI / 4)%R.
Proof.
  unfold Ratan2. destruct (Rlt_dec 0 1) as [_|H]; [|exfalso; Lra.lra].
  replace (1 / 1)%R with 1%R by Lra.lra. apply atan_1.
Qed.

Lemma Ratan2_1_opp_1 : Ratan2 1 (-1) = (3 * (PI / 4))%R.
Proof.
  unfold Ratan2. destruct (Rlt_dec 0 (-1)) as [H|_]; [exfalso; Lra.lra|].
  destruct (Rlt_dec (-1) 0) as [_|H]; [|exfalso; Lra.lra].
  destruct (Rle_dec 0 1) as [_|H]; [|exfalso; Lra.lra].
  replace (1 / -1)%R with (Ropp 1) by Lra.lra.
  rewrite atan_opp, atan_1. Lra.lra.
Qed.

Lemma cells_lookup_0 {A : Type} (v : A) (vs : list A) :
  cells (v :: vs) !! 0%N = Some v.
Proof. apply lookup_insert_eq. Qed.

Lemma cells_lookup_1 {A : Type} (v w : A) (vs : list A) :
  cells (v :: w :: vs) !! 1%N = Some w.
Proof.
  unfold cells. cbn [cells_from]. rewrite lookup_insert_ne by discriminate.
  apply lookup_insert_eq.
Qed.

(** C5. [clone] of a [FieldATan] on a list of one returns a node whose
    [generate] is [atan] of the value of the child; on a list of two, a node
    whose [generate] is [atan2] of the value of the first child and the
    value of the second, in this order; on a list of any other size, such as
    three, it throws a [ParseException].  In exact arithmetic, [atan(1)] and
    [atan(1,1)] are 0.785398 and [atan(1,-1)] is 2.35619, to the last digit
    given. *)
Theorem FieldATan_one_or_two_arguments :
  (forall (BoutReal : Type) (ops : BoutRealOps BoutReal)
          (libm : CMath BoutReal) (Context : Type) clone_cxx
          (A0 B0 a : FieldGeneratorPtr BoutReal) (nb : FieldGenerator BoutReal)
          (pos : Context) (mem : Memory BoutReal),
      clone clone_cxx (FieldATan A0 B0) [a]
      = Returned (Some (FieldATan a nullptr))
      /\ generate (FieldATan a nullptr) pos mem
         = c_atan <$> generate_ptr a pos mem
      /\ clone clone_cxx (FieldATan A0 B0) [a; Some nb]
         = Returned (Some (FieldATan a (Some nb)))
      /\ generate (FieldATan a (Some nb)) pos mem
         = (va ← generate_ptr a pos mem; vb ← generate nb pos mem;
            Some (c_atan2 va vb))
      /\ (forall args, length args <> 1%nat -> length args <> 2%nat ->
          exists e, clone clone_cxx (FieldATan A0 B0) args = Thrown e)
      /\ (exists e, clone clone_cxx (FieldATan A0 B0) [a; a; a] = Thrown e))
  /\ (forall (Context : Type) (pos : Context),
         exists r1 r2 r3 : R,
           generate (FieldATan (cell 0) nullptr) pos (cells [1%R]) = Some r1
           /\ (Rabs (r1 - 0.785398) < 0.0000005)%R
           /\ generate (FieldATan (cell 0) (cell 1)) pos (cells [1%R; 1%R])
              = Some r2
           /\ (Rabs (r2 - 0.785398) < 0.0000005)%R
           /\ generate (FieldATan (cell 0) (cell 1)) pos
                (cells [1%R; (-1)%R])
              = Some r3
           /\ (Rabs (r3 - 2.35619) < 0.000005)%R).
Proof.
  split.
  - intros. do 4 (split; [reflexivity|]). split; [|eexists; reflexivity].
    intros args H1 H2. cbn. unfold FieldATan_clone.
    destruct (Nat.eqb_spec (length args) 1); [congruence|].
    destruct (Nat.eqb_spec (length args) 2); [congruence|].
    eexists; reflexivity.
  - intros Context pos. pose proof PI_4_bounds as HPI.
    exists (atan 1), (Ratan2 1 1), (Ratan2 1 (-1)).
    split; [cbn -[cells]; rewrite cells_lookup_0; reflexivity|].
    split; [rewrite atan_1; apply Rabs_def1; Lra.lra|].
    split; [cbn -[cells]; rewrite cells_lookup_0, cells_lookup_1; reflexivity|].
    split; [rewrite Ratan2_1_1; apply Rabs_def1; Lra.lra|].
    split; [cbn -[cells]; rewrite cells_lookup_0, cells_lookup_1; reflexivity|].
    rewrite Ratan2_1_opp_1; apply Rabs_def1; Lra.lra.
Qed.

Lemma FieldATan_one_or_two_arguments_witness :
  length [cell (BoutReal := R) 0; cell 1; cell 2] <> 1%nat
  /\ length [cell (BoutReal := R) 0; cell 1; cell 2] <> 2%nat
  /\ forall clone_cxx, exists e,
       clone clone_cxx (FieldATan nullptr nullptr)
         [cell (BoutReal := R) 0; cell 1; cell 2]
       = Thrown e.
Proof.
  split; [cbn; lia|]. split; [cbn; lia|]. intros clone_cxx.
  apply (proj1 (proj2 (proj2 (proj2 (proj2
           (proj1 FieldATan_one_or_two_arguments R R_ops R_libm Coordinates
              clone_cxx nullptr nullptr (cell 0) (FieldValuePtr 0%N)
              origin (cells [1%R]))))))
           [cell 0; cell 1; cell 2]); cbn; lia.
Defined.

(** ** The text of a node *)

Section StrFacts.
Context {BoutReal : Type}.
Variable FieldGenerator_str : string.

(** C6, as the code has it. [FieldSin], [FieldCos] and [FieldHeaviside]
    render as [sin(], [cos(] and [H(], the text of the child, and [)]; a
    [FieldGenOneArg] renders as [func(...)] whatever function it wraps; the
    classes with no [str] of their own render as the base class does. *)
Theorem str_of_each_class
  (gen A B : FieldGeneratorPtr BoutReal) (Op : single_arg_op BoutReal)
  (ptr : addr) (input : list (FieldGeneratorPtr BoutReal)) :
  str FieldGenerator_str (FieldSin gen)
  = (fun s => "sin(" ++ s ++ ")")%string <$> str_ptr FieldGenerator_str gen
  /\ str FieldGenerator_str (FieldCos gen)
     = (fun s => "cos(" ++ s ++ ")")%string <$> str_ptr FieldGenerator_str gen
  /\ str FieldGenerator_str (FieldHeaviside gen)
     = (fun s => "H(" ++ s ++ ")")%string <$> str_ptr FieldGenerator_str gen
  /\ str FieldGenerator_str (FieldGenOneArg Op gen)
     = (fun s => "func(" ++ s ++ ")")%string <$> str_ptr FieldGenerator_str gen
  /\ str (BoutReal := BoutReal) FieldGenerator_str (FieldValuePtr ptr)
     = Some FieldGenerator_str
  /\ str FieldGenerator_str (FieldATan A B) = Some FieldGenerator_str
  /\ str FieldGenerator_str (FieldMin input) = Some FieldGenerator_str
  /\ str FieldGenerator_str (FieldMax input) = Some FieldGenerator_str
  /\ str FieldGenerator_str (FieldRound gen) = Some FieldGenerator_str.
Proof.
  repeat split; cbn;
    (destruct gen as [n|]; [|reflexivity]); cbn;
    destruct (str FieldGenerator_str n); reflexivity.
Qed.
End StrFacts.

(** A [FieldGenTwoArg] renders under the name [cos], whatever function it
    wraps. *)
Example FieldGenTwoArg_str_says_cos (base : string) :
  str base (FieldGenTwoArg PrimFloat.sub (cell 0) (cell 1))
  = Some ("cos(" ++ base ++ "," ++ base ++ ")")%string.
Proof. reflexivity. Qed.

(** C6, as the spec has it, fails: the node that wraps [sqrt] and the node
    that wraps [fabs] have the same text, which names neither function, and
    different values. *)
Lemma FieldGenOneArg_str_names_no_function :
  (forall base : string,
      str base (FieldGenOneArg PrimFloat.sqrt (cell 0))
      = Some ("func(" ++ base ++ ")")%string
      /\ str base (FieldGenOneArg PrimFloat.abs (cell 0))
         = Some ("func(" ++ base ++ ")")%string)
  /\ contains "sqrt" "func(" = false
  /\ (forall libm : CMath float,
         generate (FieldGenOneArg PrimFloat.sqrt (cell 0)) origin
           (cells [4%float])
         = Some 2%float
         /\ generate (FieldGenOneArg PrimFloat.abs (cell 0)) origin
              (cells [4%float])
            = Some 4%float).
Proof.
  split; [intros base; split; reflexivity|].
  split; [reflexivity|]. intros libm. split; vm_compute; reflexivity.
Qed.

(** * Further properties *)

(** ** More on the order of [double] *)

Lemma SFltb_nan_l (a : spec_float) :
  SF_is_nan a = true -> forall b, SFltb a b = false.
Proof. destruct a; try discriminate. reflexivity. Qed.

Lemma SFltb_nan_r (a : spec_float) :
  SF_is_nan a = true -> forall b, SFltb b a = false.
Proof. destruct a; try discriminate. intros _ []; reflexivity. Qed.

Lemma SFltb_trans (a b c : spec_float) :
  SFltb a b = true -> SFltb b c = true -> SFltb a c = true.
Proof. SF_cases. Qed.

Lemma SFltb_leb_ltb (a b c : spec_float) :
  SFltb a b = true -> SFleb b c = true -> SFltb a c = true.
Proof. SF_cases. Qed.

Lemma SFleb_ltb_ltb (a b c : spec_float) :
  SFleb a b = true -> SFltb b c = true -> SFltb a c = true.
Proof. SF_cases. Qed.

Lemma SFleb_antisym (a b : spec_float) :
  SFleb a b = true -> SFleb b a = true -> SFeqb a b = true.
Proof. unfold SFeqb. SF_cases. Qed.

Lemma SFltb_opp (a b : spec_float) : SFltb (SFopp a) (SFopp b) = SFltb b a.
Proof. unfold SFopp. SF_cases. Qed.

Lemma SFopp_involutive (a : spec_float) : SFopp (SFopp a) = a.
Proof. destruct a as [[]|[]| |[] m e]; reflexivity. Qed.

Section DoubleOrderMore.
Local Open Scope float_scope.
Implicit Types a b c : float.

Lemma double_ltb_nan_l a b : PrimFloat.is_nan a = true -> (a <? b) = false.
Proof.
  rewrite is_nan_Prim2SF, FloatAxioms.ltb_spec. intros H. apply SFltb_nan_l, H.
Qed.

Lemma double_ltb_nan_r a b : PrimFloat.is_nan a = true -> (b <? a) = false.
Proof.
  rewrite is_nan_Prim2SF, FloatAxioms.ltb_spec. intros H. apply SFltb_nan_r, H.
Qed.

Lemma double_ltb_trans a b c :
  (a <? b) = true -> (b <? c) = true -> (a <? c) = true.
Proof. rewrite !FloatAxioms.ltb_spec. apply SFltb_trans. Qed.

Lemma double_ltb_leb_ltb a b c :
  (a <? b) = true -> (b <=? c) = true -> (a <? c) = true.
Proof.
  rewrite !FloatAxioms.ltb_spec, FloatAxioms.leb_spec. apply SFltb_leb_ltb.
Qed.

Lemma double_leb_ltb_ltb a b c :
  (a <=? b) = true -> (b <? c) = true -> (a <? c) = true.
Proof.
  rewrite !FloatAxioms.ltb_spec, FloatAxioms.leb_spec. apply SFleb_ltb_ltb.
Qed.

Lemma double_leb_antisym a b :
  (a <=? b) = true -> (b <=? a) = true -> (a =? b) = true.
Proof.
  rewrite !FloatAxioms.leb_spec, FloatAxioms.eqb_spec. apply SFleb_antisym.
Qed.

Lemma double_ltb_opp a b : (- a <? - b) = (b <? a).
Proof.
  rewrite !FloatAxioms.ltb_spec, !FloatAxioms.opp_spec. apply SFltb_opp.
Qed.

Lemma double_opp_involutive a : - - a = a.
Proof.
  apply FloatAxioms.Prim2SF_inj. rewrite !FloatAxioms.opp_spec.
  apply SFopp_involutive.
Qed.

Lemma double_ltb_not_nan a b :
  (a <? b) = true -> PrimFloat.is_nan a = false /\ PrimFloat.is_nan b = false.
Proof.
  intros Hlt. split.
  - destruct (PrimFloat.is_nan a) eqn:H; [|reflexivity].
    rewrite (double_ltb_nan_l a b H) in Hlt. discriminate.
  - destruct (PrimFloat.is_nan b) eqn:H; [|reflexivity].
    rewrite (double_ltb_nan_r b a H) in Hlt. discriminate.
Qed.
End DoubleOrderMore.

(** ** More on the two scans *)

Lemma Forall2_In_r {A B : Type} (R : A -> B -> Prop) (l : list A) (k : list B)
  (y : B) :
  Forall2 R l k -> In y k -> exists x, In x l /\ R x y.
Proof.
  induction 1 as [|x y' l k Hxy _ IH]; intros Hin; [destruct Hin|].
  destruct Hin as [->|Hin].
  - exists x. split; [left; reflexivity|exact Hxy].
  - destruct (IH Hin) as (x' & Hx' & HR). exists x'.
    split; [right|]; assumption.
Qed.

Section ScanMore.
Context {BoutReal : Type} {ops : BoutRealOps BoutReal}.

Lemma fold_min_step_In (vs : list BoutReal) : forall result,
  In (fold_left min_step vs result) (result :: vs).
Proof.
  induction vs as [|v vs IH]; intros result; [left; reflexivity|].
  cbn [fold_left]. destruct (IH (min_step result v)) as [H|H].
  - unfold min_step in H at 1. destruct (real_lt v result).
    + right; left; exact H.
    + left; exact H.
  - right; right; exact H.
Qed.

Lemma fold_max_step_In (vs : list BoutReal) : forall result,
  In (fold_left max_step vs result) (result :: vs).
Proof.
  induction vs as [|v vs IH]; intros result; [left; reflexivity|].
  cbn [fold_left]. destruct (IH (max_step result v)) as [H|H].
  - unfold max_step in H at 1. destruct (real_gt v result).
    + right; left; exact H.
    + left; exact H.
  - right; right; exact H.
Qed.

Lemma scan_In step (vs : list BoutReal) (r : BoutReal) :
  (forall result, In (fold_left step vs result) (result :: vs)) ->
  scan step vs = Some r -> In r vs.
Proof.
  destruct vs as [|v vs]; [discriminate|]. intros Hfold [= <-].
  destruct (Hfold v) as [H|H]; [left; exact H|exact H].
Qed.
End ScanMore.

Section GenerateMore.
Context {BoutReal : Type} {ops : BoutRealOps BoutReal} {libm : CMath BoutReal}.
Context {Context : Type}.
Implicit Types (pos : Context) (mem : Memory BoutReal).
Implicit Types (input : list (FieldGeneratorPtr BoutReal)).

(** The values of the children of a scan that has a result. *)
Lemma generate_FieldMin_Some_values input pos mem r :
  generate (FieldMin input) pos mem = Some r ->
  exists vs, mapM (fun p => generate_ptr p pos mem) input = Some vs
             /\ scan min_step vs = Some r.
Proof.
  intros Hr.
  assert (is_Some (generate (FieldMin input) pos mem)) as Hsome by eauto.
  apply (FieldMin_generate_is_Some (fun p => generate_ptr p pos mem)) in Hsome
    as [_ Hall].
  apply (mapM_is_Some_2 (fun p => generate_ptr p pos mem)) in Hall as [vs Hvs].
  exists vs. split; [exact Hvs|].
  rewrite <- (generate_FieldMin_values _ _ _ _ Hvs). exact Hr.
Qed.

Lemma generate_FieldMax_Some_values input pos mem r :
  generate (FieldMax input) pos mem = Some r ->
  exists vs, mapM (fun p => generate_ptr p pos mem) input = Some vs
             /\ scan max_step vs = Some r.
Proof.
  intros Hr.
  assert (is_Some (generate (FieldMax input) pos mem)) as Hsome by eauto.
  apply (FieldMax_generate_is_Some (fun p => generate_ptr p pos mem)) in Hsome
    as [_ Hall].
  apply (mapM_is_Some_2 (fun p => generate_ptr p pos mem)) in Hall as [vs Hvs].
  exists vs. split; [exact Hvs|].
  rewrite <- (generate_FieldMax_values _ _ _ _ Hvs). exact Hr.
Qed.

(** X1. Whatever the arithmetic, the result of [FieldMin::generate] and of
    [FieldMax::generate] is the value of one of the children. *)
Theorem FieldMin_FieldMax_generate_is_a_child_value input pos mem r :
  generate (FieldMin input) pos mem = Some r
  \/ generate (FieldMax input) pos mem = Some r ->
  exists c, In c input /\ generate_ptr c pos mem = Some r.
Proof.
  intros [Hr|Hr].
  - apply generate_FieldMin_Some_values in Hr as (vs & Hvs & Hr).
    apply (scan_In _ _ _ (fold_min_step_In vs)) in Hr.
    apply mapM_Some in Hvs. exact (Forall2_In_r _ _ _ _ Hvs Hr).
  - apply generate_FieldMax_Some_values in Hr as (vs & Hvs & Hr).
    apply (scan_In _ _ _ (fold_max_step_In vs)) in Hr.
    apply mapM_Some in Hvs. exact (Forall2_In_r _ _ _ _ Hvs Hr).
Qed.
End GenerateMore.

Lemma FieldMin_FieldMax_generate_is_a_child_value_witness :
  (forall libm : CMath float,
      generate (FieldMin [cell 0; cell 1; cell 2]) origin
        (cells [3; 1; 2]%float) = Some 1%float)
  /\ forall libm : CMath float,
       exists c, In c [cell 0; cell 1; cell 2]
                 /\ generate_ptr c origin (cells [3; 1; 2]%float)
                    = Some 1%float.
Proof.
  split; [intros libm; vm_compute; reflexivity|]. intros libm.
  apply (FieldMin_FieldMax_generate_is_a_child_value
           (ops := double_ops) (libm := libm) (Context := Coordinates)
           [cell 0; cell 1; cell 2] origin (cells [3; 1; 2]%float) 1%float).
  left. vm_compute. reflexivity.
Defined.

(** ** The scans on [double]: ties and NaNs *)

Section DoubleScanMore.
Local Open Scope float_scope.

Lemma fold_min_step_first_least (rest : list float) : forall seen result,
  first_least result seen ->
  PrimFloat.is_nan result = false ->
  Forall (fun v => PrimFloat.is_nan v = false) rest ->
  first_least (fold_left min_step rest result) (seen ++ rest).
Proof.
  induction rest as [|val rest IH];
    intros seen result (pre & post & -> & Hpre & Hpost) Hres Hnan.
  - rewrite app_nil_r. exists pre, post. auto.
  - apply Forall_cons in Hnan as [Hval Hnan].
    change ((pre ++ result :: post) ++ val :: rest)%list
      with ((pre ++ result :: post) ++ [val] ++ rest)%list.
    rewrite app_assoc. cbn [fold_left]. unfold min_step at 2. cbn.
    destruct (val <? result) eqn:Hlt; apply IH; try assumption.
    + exists (pre ++ result :: post)%list, []. split; [reflexivity|].
      split; [|constructor].
      apply Forall_app. split; [|constructor].
      * eapply Forall_impl; [exact Hpre|]. cbn. intros v Hv.
        exact (double_ltb_trans _ _ _ Hlt Hv).
      * exact Hlt.
      * eapply Forall_impl; [exact Hpost|]. cbn. intros v Hv.
        exact (double_ltb_leb_ltb _ _ _ Hlt Hv).
    + exists pre, (post ++ [val])%list.
      split; [rewrite <- app_assoc; reflexivity|].
      split; [exact Hpre|]. apply Forall_app. split; [exact Hpost|].
      constructor; [|constructor]. apply double_leb_total; assumption.
Qed.

Lemma fold_max_step_first_greatest (rest : list float) : forall seen result,
  first_greatest result seen ->
  PrimFloat.is_nan result = false ->
  Forall (fun v => PrimFloat.is_nan v = false) rest ->
  first_greatest (fold_left max_step rest result) (seen ++ rest).
Proof.
  induction rest as [|val rest IH];
    intros seen result (pre & post & -> & Hpre & Hpost) Hres Hnan.
  - rewrite app_nil_r. exists pre, post. auto.
  - apply Forall_cons in Hnan as [Hval Hnan].
    change ((pre ++ result :: post) ++ val :: rest)%list
      with ((pre ++ result :: post) ++ [val] ++ rest)%list.
    rewrite app_assoc. cbn [fold_left]. unfold max_step at 2. cbn.
    destruct (result <? val) eqn:Hlt; apply IH; try assumption.
    + exists (pre ++ result :: post)%list, []. split; [reflexivity|].
      split; [|constructor].
      apply Forall_app. split; [|constructor].
      * eapply Forall_impl; [exact Hpre|]. cbn. intros v Hv.
        exact (double_ltb_trans _ _ _ Hv Hlt).
      * exact Hlt.
      * eapply Forall_impl; [exact Hpost|]. cbn. intros v Hv.
        exact (double_leb_ltb_ltb _ _ _ Hv Hlt).
    + exists pre, (post ++ [val])%list.
      split; [rewrite <- app_assoc; reflexivity|].
      split; [exact Hpre|]. apply Forall_app. split; [exact Hpost|].
      constructor; [|constructor]. apply double_leb_total; assumption.
Qed.

Lemma scan_min_step_first_least (vs : list float) :
  vs <> [] -> Forall (fun v => PrimFloat.is_nan v = false) vs ->
  exists r, scan min_step vs = Some r /\ first_least r vs.
Proof.
  destruct vs as [|v vs]; [congruence|]. intros _ [Hv Hnan]%Forall_cons.
  eexists. split; [reflexivity|]. cbn [fold_left]. rewrite min_step_same.
  apply (fold_min_step_first_least vs [v] v); [|exact Hv|exact Hnan].
  exists [], []. repeat split; constructor.
Qed.

Lemma scan_max_step_first_greatest (vs : list float) :
  vs <> [] -> Forall (fun v => PrimFloat.is_nan v = false) vs ->
  exists r, scan max_step vs = Some r /\ first_greatest r vs.
Proof.
  destruct vs as [|v vs]; [congruence|]. intros _ [Hv Hnan]%Forall_cons.
  eexists. split; [reflexivity|]. cbn [fold_left]. rewrite max_step_same.
  apply (fold_max_step_first_greatest vs [v] v); [|exact Hv|exact Hnan].
  exists [], []. repeat split; constructor.
Qed.

(** A NaN is never taken, and a NaN result is never left. *)
Lemma min_step_nan_val (result val : float) :
  PrimFloat.is_nan val = true -> min_step result val = result.
Proof.
  intros H. unfold min_step. cbn. rewrite (double_ltb_nan_l _ _ H).
  reflexivity.
Qed.

Lemma max_step_nan_val (result val : float) :
  PrimFloat.is_nan val = true -> max_step result val = result.
Proof.
  intros H. unfold max_step. cbn. rewrite (double_ltb_nan_r _ _ H).
  reflexivity.
Qed.

Lemma fold_min_step_nan_result (vs : list float) (result : float) :
  PrimFloat.is_nan result = true -> fold_left min_step vs result = result.
Proof.
  intros H. induction vs as [|v vs IH]; [reflexivity|]. cbn [fold_left].
  unfold min_step at 2. cbn. rewrite (double_ltb_nan_r _ _ H). exact IH.
Qed.

Lemma fold_max_step_nan_result (vs : list float) (result : float) :
  PrimFloat.is_nan result = true -> fold_left max_step vs result = result.
Proof.
  intros H. induction vs as [|v vs IH]; [reflexivity|]. cbn [fold_left].
  unfold max_step at 2. cbn. rewrite (double_ltb_nan_l _ _ H). exact IH.
Qed.

Lemma fold_min_step_skips_nan (vs : list float) : forall result,
  fold_left min_step vs result
  = fold_left min_step (List.filter not_nan vs) result.
Proof.
  induction vs as [|v vs IH]; intros result; [reflexivity|].
  cbn [fold_left List.filter]. unfold not_nan at 1.
  destruct (PrimFloat.is_nan v) eqn:Hv; cbn [negb fold_left].
  - rewrite (min_step_nan_val _ _ Hv). apply IH.
  - apply IH.
Qed.

Lemma fold_max_step_skips_nan (vs : list float) : forall result,
  fold_left max_step vs result
  = fold_left max_step (List.filter not_nan vs) result.
Proof.
  induction vs as [|v vs IH]; intros result; [reflexivity|].
  cbn [fold_left List.filter]. unfold not_nan at 1.
  destruct (PrimFloat.is_nan v) eqn:Hv; cbn [negb fold_left].
  - rewrite (max_step_nan_val _ _ Hv). apply IH.
  - apply IH.
Qed.

Lemma Forall_filter_not_nan (vs : list float) :
  Forall (fun v => PrimFloat.is_nan v = false) (List.filter not_nan vs).
Proof.
  apply List.Forall_forall. intros v [_ Hv]%List.filter_In.
  unfold not_nan in Hv.
  destruct (PrimFloat.is_nan v); [discriminate|reflexivity].
Qed.
End DoubleScanMore.

Lemma mapM_Permutation {A B : Type} (f : A -> option B) (l l' : list A) :
  Permutation l l' ->
  forall k, mapM f l = Some k ->
            exists k', mapM f l' = Some k' /\ Permutation k k'.
Proof.
  induction 1 as [|x l l' _ IH|x y l|l l' l'' _ IH1 _ IH2]; intros k Hk.
  - exists k. split; [exact Hk|reflexivity].
  - apply mapM_Some in Hk. inversion Hk as [|? v ? k0 Hx Hk0]; subst.
    apply mapM_Some in Hk0. destruct (IH _ Hk0) as (k' & Hk' & Hp).
    exists (v :: k'). split; [|constructor; exact Hp].
    apply mapM_Some. constructor; [exact Hx|]. apply mapM_Some, Hk'.
  - apply mapM_Some in Hk. inversion Hk as [|? v ? k0 Hy Hk0]; subst.
    inversion Hk0 as [|? w ? k1 Hx Hk1]; subst.
    exists (w :: v :: k1). split; [|apply perm_swap].
    apply mapM_Some. repeat constructor; assumption.
  - destruct (IH1 _ Hk) as (k' & Hk' & Hp1).
    destruct (IH2 _ Hk') as (k'' & Hk'' & Hp2).
    exists k''. split; [exact Hk''|]. etransitivity; eassumption.
Qed.

Section DoubleGenerateMore.
Context {libm : CMath float} {Context : Type}.
Implicit Types (pos : Context) (mem : Memory float).
Implicit Types (input : list (FieldGeneratorPtr float)).
Local Open Scope float_scope.

(** X2. When no value is a NaN, [FieldMin::generate] returns the first of
    the least values of the children and [FieldMax::generate] the first of
    the greatest: among equal values (and the two zeros) the earliest child
    wins. *)
Theorem FieldMin_FieldMax_generate_first_of_ties input pos mem vs :
  input <> [] ->
  mapM (fun p => generate_ptr p pos mem) input = Some vs ->
  Forall (fun v => PrimFloat.is_nan v = false) vs ->
  (exists r, generate (FieldMin input) pos mem = Some r /\ first_least r vs)
  /\ (exists r, generate (FieldMax input) pos mem = Some r
                /\ first_greatest r vs).
Proof.
  intros Hne Hvs Hnan.
  rewrite (generate_FieldMin_values _ _ _ _ Hvs).
  rewrite (generate_FieldMax_values _ _ _ _ Hvs).
  assert (vs <> []) as Hne'.
  { apply length_mapM in Hvs.
    destruct input, vs; try discriminate; congruence. }
  split; [apply scan_min_step_first_least|apply scan_max_step_first_greatest];
    assumption.
Qed.

(** X3. With NaNs among the values: when the value of the first child is a
    NaN, [FieldMin::generate] and [FieldMax::generate] return it; when it is
    not, they return the least and the greatest of the values that are not
    NaNs. *)
Theorem FieldMin_FieldMax_generate_among_nans input pos mem v0 vs :
  mapM (fun p => generate_ptr p pos mem) input = Some (v0 :: vs) ->
  (PrimFloat.is_nan v0 = true ->
   generate (FieldMin input) pos mem = Some v0
   /\ generate (FieldMax input) pos mem = Some v0)
  /\ (PrimFloat.is_nan v0 = false ->
      (exists r, generate (FieldMin input) pos mem = Some r
                 /\ double_minimum r (v0 :: List.filter not_nan vs))
      /\ (exists r, generate (FieldMax input) pos mem = Some r
                    /\ double_maximum r (v0 :: List.filter not_nan vs))).
Proof.
  intros Hvs.
  rewrite (generate_FieldMin_values _ _ _ _ Hvs).
  rewrite (generate_FieldMax_values _ _ _ _ Hvs).
  cbn [scan fold_left]. rewrite min_step_same, max_step_same. split.
  - intros Hnan. rewrite (fold_min_step_nan_result _ _ Hnan).
    rewrite (fold_max_step_nan_result _ _ Hnan). split; reflexivity.
  - intros Hv0.
    rewrite fold_min_step_skips_nan, fold_max_step_skips_nan.
    assert (Forall (fun v => PrimFloat.is_nan v = false)
              (v0 :: List.filter not_nan vs)) as Hall.
    { constructor; [exact Hv0|apply Forall_filter_not_nan]. }
    destruct (scan_min_step_minimum (v0 :: List.filter not_nan vs)
                ltac:(discriminate) Hall)
      as (r & Hr & Hmin).
    destruct (scan_max_step_maximum (v0 :: List.filter not_nan vs)
                ltac:(discriminate) Hall)
      as (r' & Hr' & Hmax).
    cbn [scan fold_left] in Hr, Hr'. rewrite min_step_same in Hr.
    rewrite max_step_same in Hr'. split; eauto.
Qed.

(** X4. When the value of the first child is not a NaN, the result of
    [FieldMin::generate] is at most the result of [FieldMax::generate] on
    the same children. *)
Theorem FieldMin_generate_le_FieldMax_generate input pos mem v0 vs :
  mapM (fun p => generate_ptr p pos mem) input = Some (v0 :: vs) ->
  PrimFloat.is_nan v0 = false ->
  exists rmin rmax,
    generate (FieldMin input) pos mem = Some rmin
    /\ generate (FieldMax input) pos mem = Some rmax
    /\ (rmin <=? rmax) = true.
Proof.
  intros Hvs Hv0.
  rewrite (generate_FieldMin_values _ _ _ _ Hvs).
  rewrite (generate_FieldMax_values _ _ _ _ Hvs).
  cbn [scan fold_left]. rewrite min_step_same, max_step_same.
  rewrite fold_min_step_skips_nan, fold_max_step_skips_nan.
  assert (Forall (fun v => PrimFloat.is_nan v = false)
            (v0 :: List.filter not_nan vs)) as Hall.
  { constructor; [exact Hv0|apply Forall_filter_not_nan]. }
  destruct (scan_min_step_minimum (v0 :: List.filter not_nan vs)
                ltac:(discriminate) Hall)
    as (r & Hr & _ & Hmin).
  destruct (scan_max_step_maximum (v0 :: List.filter not_nan vs)
                ltac:(discriminate) Hall)
    as (r' & Hr' & Hin & _).
  cbn [scan fold_left] in Hr, Hr'. rewrite min_step_same in Hr.
  rewrite max_step_same in Hr'. injection Hr as <-. injection Hr' as <-.
  eexists _, _. split; [reflexivity|]. split; [reflexivity|].
  rewrite List.Forall_forall in Hmin. apply Hmin, Hin.
Qed.

(** X5. When no value is a NaN, the results of [FieldMin::generate] and of
    [FieldMax::generate] do not depend on the order of the children, up to
    [==] on [double] (the sign of a zero may differ). *)
Theorem FieldMin_FieldMax_generate_permutation input input' pos mem vs :
  input <> [] ->
  Permutation input input' ->
  mapM (fun p => generate_ptr p pos mem) input = Some vs ->
  Forall (fun v => PrimFloat.is_nan v = false) vs ->
  (exists r r', generate (FieldMin input) pos mem = Some r
                /\ generate (FieldMin input') pos mem = Some r'
                /\ (r =? r') = true)
  /\ (exists r r', generate (FieldMax input) pos mem = Some r
                   /\ generate (FieldMax input') pos mem = Some r'
                   /\ (r =? r') = true).
Proof.
  intros Hne Hperm Hvs Hnan.
  destruct (mapM_Permutation _ _ _ Hperm _ Hvs) as (vs' & Hvs' & Hp).
  assert (Forall (fun v => PrimFloat.is_nan v = false) vs') as Hnan'.
  { rewrite <- Hp. exact Hnan. }
  assert (vs <> []) as Hne1.
  { apply length_mapM in Hvs.
    destruct input, vs; try discriminate; congruence. }
  assert (vs' <> []) as Hne2.
  { intros ->. apply Permutation_nil_r in Hp. congruence. }
  rewrite (generate_FieldMin_values _ _ _ _ Hvs).
  rewrite (generate_FieldMax_values _ _ _ _ Hvs).
  rewrite (generate_FieldMin_values _ _ _ _ Hvs').
  rewrite (generate_FieldMax_values _ _ _ _ Hvs').
  split.
  - destruct (scan_min_step_minimum _ Hne1 Hnan) as (r & -> & Hin & Hle).
    destruct (scan_min_step_minimum _ Hne2 Hnan') as (r' & -> & Hin' & Hle').
    exists r, r'. do 2 (split; [reflexivity|]).
    rewrite List.Forall_forall in Hle, Hle'. apply double_leb_antisym.
    + apply Hle. eapply Permutation_in; [symmetry; exact Hp|exact Hin'].
    + apply Hle'. eapply Permutation_in; [exact Hp|exact Hin].
  - destruct (scan_max_step_maximum _ Hne1 Hnan) as (r & -> & Hin & Hle).
    destruct (scan_max_step_maximum _ Hne2 Hnan') as (r' & -> & Hin' & Hle').
    exists r, r'. do 2 (split; [reflexivity|]).
    rewrite List.Forall_forall in Hle, Hle'. apply double_leb_antisym.
    + apply Hle'. eapply Permutation_in; [exact Hp|exact Hin].
    + apply Hle. eapply Permutation_in; [symmetry; exact Hp|exact Hin'].
Qed.

Lemma generate_ptr_negated (p : FieldGeneratorPtr float) pos mem :
  generate_ptr (negated p) pos mem = PrimFloat.opp <$> generate_ptr p pos mem.
Proof. destruct p; reflexivity. Qed.

Lemma FieldMax_loop_negated pos mem (it : list (FieldGeneratorPtr float)) :
  forall result,
    FieldMax_loop (fun p => generate_ptr p pos mem) it result
    = PrimFloat.opp
        <$> FieldMin_loop (fun p => generate_ptr p pos mem) (negated <$> it)
              (- result).
Proof.
  induction it as [|c it IH]; intros result.
  - cbn. rewrite double_opp_involutive. reflexivity.
  - cbn [FieldMax_loop FieldMin_loop fmap list_fmap].
    rewrite generate_ptr_negated.
    destruct (generate_ptr c pos mem) as [val|]; [|reflexivity].
    cbn [mbind option_bind fmap option_fmap option_map].
    rewrite IH. cbn [real_gt real_lt double_ops]. rewrite double_ltb_opp.
    destruct (result <? val); reflexivity.
Qed.

Lemma FieldMin_loop_negated pos mem (it : list (FieldGeneratorPtr float)) :
  forall result,
    FieldMin_loop (fun p => generate_ptr p pos mem) it result
    = PrimFloat.opp
        <$> FieldMax_loop (fun p => generate_ptr p pos mem) (negated <$> it)
              (- result).
Proof.
  induction it as [|c it IH]; intros result.
  - cbn. rewrite double_opp_involutive. reflexivity.
  - cbn [FieldMax_loop FieldMin_loop fmap list_fmap].
    rewrite generate_ptr_negated.
    destruct (generate_ptr c pos mem) as [val|]; [|reflexivity].
    cbn [mbind option_bind fmap option_fmap option_map].
    rewrite IH. cbn [real_gt real_lt double_ops]. rewrite double_ltb_opp.
    destruct (val <? result); reflexivity.
Qed.

(** X6. [FieldMax] is [FieldMin] under negation, and conversely: the
    greatest of the children is the negated least of the negated children,
    for every list of children and every value, NaNs and undefined results
    included. *)
Theorem FieldMax_generate_is_negated_FieldMin input pos mem :
  generate (FieldMax input) pos mem
  = PrimFloat.opp <$> generate (FieldMin (negated <$> input)) pos mem
  /\ generate (FieldMin input) pos mem
     = PrimFloat.opp <$> generate (FieldMax (negated <$> input)) pos mem.
Proof.
  destruct input as [|c it]; [split; reflexivity|].
  change (generate (FieldMax (c :: it)) pos mem)
    with (FieldMax_generate (fun p => generate_ptr p pos mem) (c :: it)).
  change (generate (FieldMin (c :: it)) pos mem)
    with (FieldMin_generate (fun p => generate_ptr p pos mem) (c :: it)).
  change (generate (FieldMin (negated <$> c :: it)) pos mem)
    with (FieldMin_generate (fun p => generate_ptr p pos mem)
            (negated c :: (negated <$> it))).
  change (generate (FieldMax (negated <$> c :: it)) pos mem)
    with (FieldMax_generate (fun p => generate_ptr p pos mem)
            (negated c :: (negated <$> it))).
  unfold FieldMax_generate, FieldMin_generate.
  rewrite generate_ptr_negated.
  destruct (generate_ptr c pos mem) as [val|] eqn:Hc; [|split; reflexivity].
  cbn [mbind option_bind fmap option_fmap option_map].
  rewrite (FieldMax_loop_negated pos mem (c :: it) val).
  rewrite (FieldMin_loop_negated pos mem (c :: it) val).
  split; reflexivity.
Qed.
End DoubleGenerateMore.

Lemma FieldMin_FieldMax_generate_first_of_ties_witness :
  [cell (BoutReal := float) 0; cell 1; cell 2] <> []
  /\ Forall (fun v => PrimFloat.is_nan v = false) [1; 3; 1]%float
  /\ forall libm : CMath float,
       mapM (fun p => generate_ptr p origin (cells [1; 3; 1]%float))
         [cell 0; cell 1; cell 2]
       = Some [1; 3; 1]%float
       /\ (exists r, generate (FieldMin [cell 0; cell 1; cell 2]) origin
                       (cells [1; 3; 1]%float) = Some r
                     /\ first_least r [1; 3; 1]%float)
       /\ (exists r, generate (FieldMax [cell 0; cell 1; cell 2]) origin
                       (cells [1; 3; 1]%float) = Some r
                     /\ first_greatest r [1; 3; 1]%float).
Proof.
  split; [discriminate|]. split; [repeat constructor|]. intros libm.
  split; [reflexivity|].
  apply (FieldMin_FieldMax_generate_first_of_ties
           (libm := libm) (Context := Coordinates)
           [cell 0; cell 1; cell 2] origin (cells [1; 3; 1]%float)
           [1; 3; 1]%float).
  - discriminate.
  - reflexivity.
  - repeat constructor.
Defined.

Lemma FieldMin_FieldMax_generate_among_nans_witness :
  PrimFloat.is_nan 3 = false
  /\ forall libm : CMath float,
       mapM (fun p => generate_ptr p origin (cells [3; nan; 1]%float))
         [cell 0; cell 1; cell 2]
       = Some [3; nan; 1]%float
       /\ (exists r, generate (FieldMin [cell 0; cell 1; cell 2]) origin
                       (cells [3; nan; 1]%float) = Some r
                     /\ double_minimum r
                          (3 :: List.filter not_nan [nan; 1])%float)
       /\ (exists r, generate (FieldMax [cell 0; cell 1; cell 2]) origin
                       (cells [3; nan; 1]%float) = Some r
                     /\ double_maximum r
                          (3 :: List.filter not_nan [nan; 1])%float).
Proof.
  split; [reflexivity|]. intros libm. split; [reflexivity|].
  apply (proj2 (FieldMin_FieldMax_generate_among_nans
                  (libm := libm) (Context := Coordinates)
                  [cell 0; cell 1; cell 2] origin (cells [3; nan; 1]%float)
                  3%float [nan; 1]%float eq_refl)).
  reflexivity.
Defined.

Lemma FieldMin_generate_le_FieldMax_generate_witness :
  PrimFloat.is_nan 3 = false
  /\ forall libm : CMath float,
       mapM (fun p => generate_ptr p origin (cells [3; nan; 1]%float))
         [cell 0; cell 1; cell 2]
       = Some [3; nan; 1]%float
       /\ exists rmin rmax,
           generate (FieldMin [cell 0; cell 1; cell 2]) origin
             (cells [3; nan; 1]%float) = Some rmin
           /\ generate (FieldMax [cell 0; cell 1; cell 2]) origin
                (cells [3; nan; 1]%float) = Some rmax
           /\ (rmin <=? rmax)%float = true.
Proof.
  split; [reflexivity|]. intros libm. split; [reflexivity|].
  apply (FieldMin_generate_le_FieldMax_generate
           (libm := libm) (Context := Coordinates)
           [cell 0; cell 1; cell 2] origin (cells [3; nan; 1]%float)
           3%float [nan; 1]%float); reflexivity.
Defined.

Lemma FieldMin_FieldMax_generate_permutation_witness :
  [cell (BoutReal := float) 0; cell 1] <> []
  /\ Permutation [cell (BoutReal := float) 0; cell 1] [cell 1; cell 0]
  /\ Forall (fun v => PrimFloat.is_nan v = false) [3; 1]%float
  /\ forall libm : CMath float,
       mapM (fun p => generate_ptr p origin (cells [3; 1]%float))
         [cell 0; cell 1]
       = Some [3; 1]%float
       /\ (exists r r',
              generate (FieldMin [cell 0; cell 1]) origin (cells [3; 1]%float)
              = Some r
              /\ generate (FieldMin [cell 1; cell 0]) origin
                   (cells [3; 1]%float) = Some r'
              /\ (r =? r')%float = true)
       /\ (exists r r',
              generate (FieldMax [cell 0; cell 1]) origin (cells [3; 1]%float)
              = Some r
              /\ generate (FieldMax [cell 1; cell 0]) origin
                   (cells [3; 1]%float) = Some r'
              /\ (r =? r')%float = true).
Proof.
  split; [discriminate|]. split; [apply perm_swap|].
  split; [repeat constructor|]. intros libm. split; [reflexivity|].
  apply (FieldMin_FieldMax_generate_permutation
           (libm := libm) (Context := Coordinates)
           [cell 0; cell 1] [cell 1; cell 0] origin (cells [3; 1]%float)
           [3; 1]%float).
  - discriminate.
  - apply perm_swap.
  - reflexivity.
  - repeat constructor.
Defined.

(** ** A scan of scans *)

(** A fold of a turn that is associative on the values [ok], over the
    concatenation of lists of such values, is the fold over the results of
    the scans of the lists. *)
Section FoldOfFolds.
Context {A : Type} (step : A -> A -> A) (ok : A -> Prop).
Hypothesis step_same : forall v, step v v = v.
Hypothesis step_ok : forall v w, ok v -> ok w -> ok (step v w).
Hypothesis step_assoc :
  forall acc v w, ok v -> ok w -> step (step acc v) w = step acc (step v w).

Lemma fold_step_absorb (vs : list A) :
  Forall ok vs ->
  forall v acc, ok v ->
    fold_left step vs (step acc v) = step acc (fold_left step vs v).
Proof.
  induction 1 as [|w vs Hw _ IH]; intros v acc Hv; [reflexivity|].
  cbn [fold_left]. rewrite (step_assoc _ _ _ Hv Hw).
  apply IH, step_ok; assumption.
Qed.

Lemma fold_step_concat (vss : list (list A)) (ms : list A) :
  Forall2 (fun vs m => match vs with
                       | [] => False
                       | v :: _ => fold_left step vs v = m
                       end) vss ms ->
  Forall (Forall ok) vss ->
  forall acc, fold_left step (concat vss) acc = fold_left step ms acc.
Proof.
  induction 1 as [|vs m vss ms Hm _ IH]; intros Hok acc; [reflexivity|].
  apply Forall_cons in Hok as [Hvs Hok]. cbn [concat fold_left].
  rewrite fold_left_app. destruct vs as [|v vs]; [destruct Hm|].
  apply Forall_cons in Hvs as [Hv Hvs]. cbn [fold_left] in Hm |- *.
  rewrite step_same in Hm. rewrite (fold_step_absorb vs Hvs v acc Hv), Hm.
  apply IH, Hok.
Qed.

Lemma scan_step_concat (vss : list (list A)) (ms : list A) :
  Forall2 (fun vs m => match vs with
                       | [] => False
                       | v :: _ => fold_left step vs v = m
                       end) vss ms ->
  Forall (Forall ok) vss ->
  match concat vss with
  | [] => None
  | v :: _ => Some (fold_left step (concat vss) v)
  end
  = match ms with
    | [] => None
    | m :: _ => Some (fold_left step ms m)
    end.
Proof.
  intros Hms Hok. pose proof (fold_step_concat _ _ Hms Hok) as Hfold.
  destruct Hms as [|vs m vss ms Hm Hms]; [reflexivity|].
  destruct vs as [|v vs]; [destruct Hm|].
  cbn [concat app] in Hfold |- *. rewrite Hfold. cbn [fold_left].
  do 2 f_equal. apply Forall_cons in Hok as [Hvs _].
  apply Forall_cons in Hvs as [Hv Hvs].
  cbn [fold_left] in Hm. rewrite step_same in Hm |- *. rewrite <- Hm.
  rewrite <- (fold_step_absorb vs Hvs v v Hv), step_same. reflexivity.
Qed.
End FoldOfFolds.

Section DoubleStepAssoc.
Local Open Scope float_scope.

Lemma min_step_not_nan (v w : float) :
  PrimFloat.is_nan v = false -> PrimFloat.is_nan w = false ->
  PrimFloat.is_nan (min_step v w) = false.
Proof. unfold min_step. destruct (real_lt w v); auto. Qed.

Lemma max_step_not_nan (v w : float) :
  PrimFloat.is_nan v = false -> PrimFloat.is_nan w = false ->
  PrimFloat.is_nan (max_step v w) = false.
Proof. unfold max_step. destruct (real_gt w v); auto. Qed.

Lemma min_step_assoc (acc v w : float) :
  PrimFloat.is_nan v = false -> PrimFloat.is_nan w = false ->
  min_step (min_step acc v) w = min_step acc (min_step v w).
Proof.
  intros Hv Hw. unfold min_step. cbn.
  destruct (v <? acc) eqn:Hva, (w <? v) eqn:Hwv.
  - rewrite (double_ltb_trans _ _ _ Hwv Hva). reflexivity.
  - rewrite ?Hwv, ?Hva. reflexivity.
  - reflexivity.
  - rewrite ?Hva. destruct (w <? acc) eqn:Hwa; [|reflexivity].
    pose proof (double_leb_total _ _ Hw Hv Hwv) as Hle.
    rewrite (double_leb_ltb_ltb _ _ _ Hle Hwa) in Hva. discriminate Hva.
Qed.

Lemma max_step_assoc (acc v w : float) :
  PrimFloat.is_nan v = false -> PrimFloat.is_nan w = false ->
  max_step (max_step acc v) w = max_step acc (max_step v w).
Proof.
  intros Hv Hw. unfold max_step. cbn.
  destruct (acc <? v) eqn:Hva, (v <? w) eqn:Hwv.
  - rewrite (double_ltb_trans _ _ _ Hva Hwv). reflexivity.
  - rewrite ?Hwv, ?Hva. reflexivity.
  - reflexivity.
  - rewrite ?Hva. destruct (acc <? w) eqn:Hwa; [|reflexivity].
    pose proof (double_leb_total _ _ Hv Hw Hwv) as Hle.
    rewrite (double_ltb_leb_ltb _ _ _ Hwa Hle) in Hva. discriminate Hva.
Qed.
End DoubleStepAssoc.

(** The values of the children of the lists [ls], list by list. *)
Lemma mapM_concat_inv {A B : Type} (f : A -> option B) (ls : list (list A)) :
  forall vs, mapM f (concat ls) = Some vs ->
  exists vss, vs = concat vss
              /\ Forall2 (fun l vs' => mapM f l = Some vs') ls vss.
Proof.
  induction ls as [|l ls IH]; intros vs Hvs.
  - apply mapM_Some in Hvs. apply Forall2_nil_inv_l in Hvs as ->.
    exists []. split; [reflexivity|constructor].
  - cbn [concat] in Hvs. apply mapM_Some in Hvs.
    apply Forall2_app_inv_l in Hvs as (vs1 & vs2 & H1 & H2 & ->).
    apply mapM_Some in H1, H2. destruct (IH _ H2) as (vss & -> & Hvss).
    exists (vs1 :: vss). split; [reflexivity|]. constructor; assumption.
Qed.

Section Flatten.
Context {libm : CMath float} {Context : Type}.
Implicit Types (pos : Context) (mem : Memory float).
Implicit Types (inputs : list (list (FieldGeneratorPtr float))).
Local Open Scope float_scope.

Lemma Forall_concat_inv {A : Type} (P : A -> Prop) (ls : list (list A)) :
  Forall P (concat ls) -> Forall (Forall P) ls.
Proof.
  induction ls as [|l ls IH]; [constructor|]. cbn [concat].
  intros [H1 H2]%Forall_app. constructor; [exact H1|exact (IH H2)].
Qed.

Lemma nested_values (node : list (FieldGeneratorPtr float)
                            -> FieldGenerator float)
  (step : float -> float -> float) pos mem :
  (forall input vs,
      mapM (fun p => generate_ptr p pos mem) input = Some vs ->
      generate (node input) pos mem = scan step vs) ->
  forall inputs vss,
    Forall (fun input => input <> []) inputs ->
    Forall2 (fun input vs => mapM (fun p => generate_ptr p pos mem) input
                             = Some vs) inputs vss ->
    exists ms,
      mapM (fun p => generate_ptr p pos mem)
        ((fun input => Some (node input)) <$> inputs) = Some ms
      /\ Forall2 (fun vs m => match vs with
                              | [] => False
                              | v :: _ => fold_left step vs v = m
                              end) vss ms.
Proof.
  intros Hnode inputs vss Hne Hvss.
  induction Hvss as [|input vs inputs vss Hvs _ IH].
  - exists []. split; [reflexivity|constructor].
  - apply Forall_cons in Hne as [Hne1 Hne].
    destruct (IH Hne) as (ms & Hms & Hall).
    pose proof (Hnode _ _ Hvs) as Hg.
    destruct vs as [|v vs].
    + apply mapM_Some in Hvs. apply Forall2_nil_inv_r in Hvs. congruence.
    + exists (fold_left step (v :: vs) v :: ms). split.
      * cbn [fmap list_fmap mapM]. cbn [generate_ptr]. rewrite Hg.
        cbn [scan]. cbn. cbn in Hms. rewrite Hms. reflexivity.
      * constructor; [reflexivity|exact Hall].
Qed.

(** X7. A [FieldMin] of [FieldMin]s is the [FieldMin] of all their
    children, in their order, and a [FieldMax] of [FieldMax]es the
    [FieldMax] of all of them, when the inner nodes have children and no
    child's value is a NaN. *)
Theorem FieldMin_of_FieldMins_is_flat inputs pos mem vs :
  Forall (fun input => input <> []) inputs ->
  mapM (fun p => generate_ptr p pos mem) (concat inputs) = Some vs ->
  Forall (fun v => PrimFloat.is_nan v = false) vs ->
  generate (FieldMin ((fun input => Some (FieldMin input)) <$> inputs)) pos mem
  = generate (FieldMin (concat inputs)) pos mem
  /\ generate (FieldMax ((fun input => Some (FieldMax input)) <$> inputs))
       pos mem
     = generate (FieldMax (concat inputs)) pos mem.
Proof.
  intros Hne Hvs Hnan.
  destruct (mapM_concat_inv _ _ _ Hvs) as (vss & -> & Hvss).
  apply Forall_concat_inv in Hnan. split.
  - destruct (nested_values FieldMin min_step pos mem
                (fun input vs => generate_FieldMin_values input pos mem vs)
                inputs vss Hne Hvss) as (ms & Hms & Hall).
    rewrite (generate_FieldMin_values _ _ _ _ Hvs).
    transitivity (scan min_step ms);
      [exact (generate_FieldMin_values _ _ _ _ Hms)|]. symmetry.
    apply (scan_step_concat min_step (fun v => PrimFloat.is_nan v = false)
             min_step_same min_step_not_nan min_step_assoc vss ms Hall Hnan).
  - destruct (nested_values FieldMax max_step pos mem
                (fun input vs => generate_FieldMax_values input pos mem vs)
                inputs vss Hne Hvss) as (ms & Hms & Hall).
    rewrite (generate_FieldMax_values _ _ _ _ Hvs).
    transitivity (scan max_step ms);
      [exact (generate_FieldMax_values _ _ _ _ Hms)|]. symmetry.
    apply (scan_step_concat max_step (fun v => PrimFloat.is_nan v = false)
             max_step_same max_step_not_nan max_step_assoc vss ms Hall Hnan).
Qed.
End Flatten.

Lemma FieldMin_of_FieldMins_is_flat_witness :
  Forall (fun input => input <> [])
    [[cell (BoutReal := float) 0; cell 1]; [cell 2]]
  /\ Forall (fun v => PrimFloat.is_nan v = false) [3; 1; 2]%float
  /\ forall libm : CMath float,
       mapM (fun p => generate_ptr p origin (cells [3; 1; 2]%float))
         (concat [[cell 0; cell 1]; [cell 2]])
       = Some [3; 1; 2]%float
       /\ generate (FieldMin [Some (FieldMin [cell 0; cell 1]);
                              Some (FieldMin [cell 2])])
            origin (cells [3; 1; 2]%float)
          = generate (FieldMin [cell 0; cell 1; cell 2]) origin
              (cells [3; 1; 2]%float)
       /\ generate (FieldMax [Some (FieldMax [cell 0; cell 1]);
                              Some (FieldMax [cell 2])])
            origin (cells [3; 1; 2]%float)
          = generate (FieldMax [cell 0; cell 1; cell 2]) origin
              (cells [3; 1; 2]%float).
Proof.
  split; [repeat constructor; discriminate|].
  split; [repeat constructor|]. intros libm. split; [reflexivity|].
  apply (FieldMin_of_FieldMins_is_flat (libm := libm) (Context := Coordinates)
           [[cell 0; cell 1]; [cell 2]] origin (cells [3; 1; 2]%float)
           [3; 1; 2]%float).
  - repeat constructor; discriminate.
  - reflexivity.
  - repeat constructor.
Defined.

(** ** More on [clone] *)

Section CloneMore.
Context {BoutReal : Type}.
Implicit Types (g : FieldGenerator BoutReal).
Implicit Types (args : list (FieldGeneratorPtr BoutReal)).
Variable clone_cxx :
  FieldGenerator BoutReal -> list (FieldGeneratorPtr BoutReal)
  -> CloneResult BoutReal.

(** Lists of one and of two elements. *)
Lemma length_1_inv {A : Type} (l : list A) :
  length l = 1%nat -> exists a, l = [a].
Proof. destruct l as [|a [|]]; try discriminate. eauto. Qed.

Lemma length_2_inv {A : Type} (l : list A) :
  length l = 2%nat -> exists a b, l = [a; b].
Proof. destruct l as [|a [|b [|]]]; try discriminate. eauto. Qed.

(** X8. For the classes of which the header defines [clone]: on a list of
    a size the class accepts (any for [FieldValuePtr], one for
    [FieldGenOneArg] and [FieldRound], two for [FieldGenTwoArg], one or two
    for [FieldATan], at least one for [FieldMin] and [FieldMax]), [clone]
    returns a node, never [nullptr], of the class of the receiver, whose
    children are the arguments in their order when none of them is null
    (a [FieldValuePtr] has none); on any other size it throws. *)
Theorem clone_returns_on_accepted_sizes g args :
  defined_in_header g = true ->
  (accepts g (length args) = true ->
   exists g',
     clone clone_cxx g args = Returned (Some g')
     /\ same_class g g'
     /\ ((forall ptr, g <> FieldValuePtr ptr) ->
         Forall (fun p => p <> nullptr) args ->
         children g' = args))
  /\ (accepts g (length args) = false ->
      exists e, clone clone_cxx g args = Thrown e).
Proof.
  intros Hg. destruct g; try discriminate Hg; cbn [accepts clone]; split.
  - intros _. eexists. split; [reflexivity|]. split; [reflexivity|].
    intros H. destruct (H ptr eq_refl).
  - discriminate.
  - intros [a ->]%Nat.eqb_eq%length_1_inv. eexists.
    split; [reflexivity|]. split; reflexivity.
  - intros H. unfold FieldGenOneArg_clone. rewrite H. eexists; reflexivity.
  - intros (a & b & ->)%Nat.eqb_eq%length_2_inv. eexists.
    split; [reflexivity|]. split; reflexivity.
  - intros H. unfold FieldGenTwoArg_clone. rewrite H. eexists; reflexivity.
  - intros [H|H]%orb_true_iff.
    + apply Nat.eqb_eq, length_1_inv in H as [a ->]. eexists.
      split; [reflexivity|]. split; reflexivity.
    + apply Nat.eqb_eq, length_2_inv in H as (a & b & ->). eexists.
      split; [reflexivity|]. split; [exact I|].
      intros _ Hnull. apply Forall_cons in Hnull as [_ Hnull].
      apply Forall_cons in Hnull as [Hb _]. cbn.
      destruct b; [reflexivity|]. destruct Hb; reflexivity.
  - intros [H1 H2]%orb_false_iff. unfold FieldATan_clone. rewrite H1, H2.
    eexists; reflexivity.
  - intros H%negb_true_iff. unfold FieldMin_clone. rewrite H. eexists.
    split; [reflexivity|]. split; reflexivity.
  - intros H%negb_false_iff. unfold FieldMin_clone. rewrite H.
    eexists; reflexivity.
  - intros H%negb_true_iff. unfold FieldMax_clone. rewrite H. eexists.
    split; [reflexivity|]. split; reflexivity.
  - intros H%negb_false_iff. unfold FieldMax_clone. rewrite H.
    eexists; reflexivity.
  - intros [a ->]%Nat.eqb_eq%length_1_inv. eexists.
    split; [reflexivity|]. split; reflexivity.
  - intros H. unfold FieldRound_clone. rewrite H. eexists; reflexivity.
Qed.

(** X9. [clone] of a node on its own children gives the node back, for the
    classes of which the header defines [clone], a [FieldMin] or [FieldMax]
    without children apart (on which it throws). *)
Theorem clone_on_own_children g :
  defined_in_header g = true ->
  accepts g (length (children g)) = true ->
  clone clone_cxx g (children g) = Returned (Some g).
Proof.
  intros Hg Hacc. destruct g; try discriminate Hg; try reflexivity.
  - destruct B; reflexivity.
  - destruct input; [discriminate Hacc|reflexivity].
  - destruct input; [discriminate Hacc|reflexivity].
Qed.

(** X10. [clone] does not look at the children of the node it is called on:
    two nodes of the same class give the same result on the same list. *)
Theorem clone_ignores_the_receiver_children g g' args :
  same_class g g' -> clone clone_cxx g args = clone clone_cxx g' args.
Proof.
  destruct g, g'; cbn [same_class]; try contradiction;
    try (intros ->); reflexivity.
Qed.
End CloneMore.

Lemma clone_returns_on_accepted_sizes_witness :
  defined_in_header (FieldRound (BoutReal := float) nullptr) = true
  /\ accepts (FieldRound (BoutReal := float) nullptr)
       (length [cell (BoutReal := float) 0]) = true
  /\ forall clone_cxx, exists g',
       clone clone_cxx (FieldRound nullptr) [cell (BoutReal := float) 0]
       = Returned (Some g')
       /\ same_class (FieldRound nullptr) g'
       /\ ((forall ptr,
               FieldRound (BoutReal := float) nullptr <> FieldValuePtr ptr) ->
           Forall (fun p => p <> nullptr) [cell (BoutReal := float) 0] ->
           children g' = [cell 0]).
Proof.
  split; [reflexivity|]. split; [reflexivity|]. intros clone_cxx.
  apply (proj1 (clone_returns_on_accepted_sizes clone_cxx (FieldRound nullptr)
                  [cell 0] eq_refl)).
  reflexivity.
Defined.

Lemma clone_on_own_children_witness :
  defined_in_header (FieldATan (cell (BoutReal := float) 0) (cell 1)) = true
  /\ accepts (FieldATan (cell (BoutReal := float) 0) (cell 1))
       (length (children (FieldATan (cell (BoutReal := float) 0) (cell 1))))
     = true
  /\ forall clone_cxx,
       clone clone_cxx (FieldATan (cell (BoutReal := float) 0) (cell 1))
         (children (FieldATan (cell 0) (cell 1)))
       = Returned (Some (FieldATan (cell 0) (cell 1))).
Proof.
  split; [reflexivity|]. split; [reflexivity|]. intros clone_cxx.
  apply (clone_on_own_children clone_cxx (FieldATan (cell 0) (cell 1)));
    reflexivity.
Defined.

Lemma clone_ignores_the_receiver_children_witness :
  same_class (FieldMin (BoutReal := float) []) (FieldMin [cell 0; cell 1])
  /\ forall clone_cxx,
       clone clone_cxx (FieldMin (BoutReal := float) []) [cell 2]
       = clone clone_cxx (FieldMin [cell 0; cell 1]) [cell 2].
Proof.
  split; [exact I|]. intros clone_cxx.
  apply (clone_ignores_the_receiver_children clone_cxx (FieldMin [])
           (FieldMin [cell 0; cell 1]) [cell 2]).
  exact I.
Defined.

(** ** Induction on a tree

    A property of every node follows from its proofs for each class, given
    the property of the children. *)

Section Induction.
Context {BoutReal : Type}.
Variable P : FieldGenerator BoutReal -> Prop.

Hypothesis P_ValuePtr : forall ptr, P (FieldValuePtr ptr).
Hypothesis P_Sin : forall gen, on_child P gen -> P (FieldSin gen).
Hypothesis P_Cos : forall gen, on_child P gen -> P (FieldCos gen).
Hypothesis P_OneArg :
  forall Op gen, on_child P gen -> P (FieldGenOneArg Op gen).
Hypothesis P_TwoArg :
  forall Op A B, on_child P A -> on_child P B -> P (FieldGenTwoArg Op A B).
Hypothesis P_ATan :
  forall A B, on_child P A -> on_child P B -> P (FieldATan A B).
Hypothesis P_Heaviside :
  forall gen, on_child P gen -> P (FieldHeaviside gen).
Hypothesis P_Min :
  forall input, Forall (on_child P) input -> P (FieldMin input).
Hypothesis P_Max :
  forall input, Forall (on_child P) input -> P (FieldMax input).
Hypothesis P_Round : forall gen, on_child P gen -> P (FieldRound gen).

Fixpoint FieldGenerator_tree_ind (g : FieldGenerator BoutReal) : P g :=
  let of_ptr (p : FieldGeneratorPtr BoutReal) : on_child P p :=
    match p with
    | Some n => FieldGenerator_tree_ind n
    | None => I
    end in
  let of_list :=
    fix of_list (l : list (FieldGeneratorPtr BoutReal))
      : Forall (on_child P) l :=
      match l with
      | [] => @List.Forall_nil _ (on_child P)
      | p :: l' =>
          @List.Forall_cons _ (on_child P) p l' (of_ptr p) (of_list l')
      end in
  match g with
  | FieldValuePtr ptr => P_ValuePtr ptr
  | FieldSin gen => P_Sin gen (of_ptr gen)
  | FieldCos gen => P_Cos gen (of_ptr gen)
  | FieldGenOneArg Op gen => P_OneArg Op gen (of_ptr gen)
  | FieldGenTwoArg Op A B => P_TwoArg Op A B (of_ptr A) (of_ptr B)
  | FieldATan A B => P_ATan A B (of_ptr A) (of_ptr B)
  | FieldHeaviside gen => P_Heaviside gen (of_ptr gen)
  | FieldMin input => P_Min input (of_list input)
  | FieldMax input => P_Max input (of_list input)
  | FieldRound gen => P_Round gen (of_ptr gen)
  end.
End Induction.

(** ** What [generate] reads and when it returns *)

Section LoopsExt.
Context {BoutReal : Type} {ops : BoutRealOps BoutReal}.
Context {child : Type} (call call' : child -> option BoutReal).

Lemma FieldMin_loop_ext it :
  Forall (fun c => call c = call' c) it ->
  forall result, FieldMin_loop call it result = FieldMin_loop call' it result.
Proof.
  induction 1 as [|c it Hc _ IH]; intros result; [reflexivity|].
  cbn. rewrite Hc. destruct (call' c); [apply IH|reflexivity].
Qed.

Lemma FieldMax_loop_ext it :
  Forall (fun c => call c = call' c) it ->
  forall result, FieldMax_loop call it result = FieldMax_loop call' it result.
Proof.
  induction 1 as [|c it Hc _ IH]; intros result; [reflexivity|].
  cbn. rewrite Hc. destruct (call' c); [apply IH|reflexivity].
Qed.

Lemma FieldMin_generate_ext input :
  Forall (fun c => call c = call' c) input ->
  FieldMin_generate call input = FieldMin_generate call' input.
Proof.
  intros Hall. pose proof (FieldMin_loop_ext _ Hall) as Hloop.
  destruct Hall as [|c it Hc _]; [reflexivity|].
  unfold FieldMin_generate. rewrite Hc.
  destruct (call' c); [apply Hloop|reflexivity].
Qed.

Lemma FieldMax_generate_ext input :
  Forall (fun c => call c = call' c) input ->
  FieldMax_generate call input = FieldMax_generate call' input.
Proof.
  intros Hall. pose proof (FieldMax_loop_ext _ Hall) as Hloop.
  destruct Hall as [|c it Hc _]; [reflexivity|].
  unfold FieldMax_generate. rewrite Hc.
  destruct (call' c); [apply Hloop|reflexivity].
Qed.
End LoopsExt.

Section TreeFacts.
Context {BoutReal : Type} {ops : BoutRealOps BoutReal}.
Context {libm : CMath BoutReal} {Context : Type}.
Implicit Types (g : FieldGenerator BoutReal) (p : FieldGeneratorPtr BoutReal).
Implicit Types (pos : Context) (mem : Memory BoutReal).

(** [generate], with the calls to the children through [generate_ptr]. *)
Lemma generate_eq g pos mem :
  generate g pos mem =
  let call p := generate_ptr p pos mem in
  match g with
  | FieldValuePtr ptr => mem !! ptr
  | FieldSin gen => FieldSin_apply <$> call gen
  | FieldCos gen => FieldCos_apply <$> call gen
  | FieldGenOneArg Op gen => Op <$> call gen
  | FieldGenTwoArg Op A B => a ← call A; b ← call B; Some (Op a b)
  | FieldATan A B =>
      match B with
      | None => c_atan <$> call A
      | Some _ => a ← call A; b ← call B; Some (c_atan2 a b)
      end
  | FieldHeaviside gen => FieldHeaviside_apply <$> call gen
  | FieldMin input => FieldMin_generate call input
  | FieldMax input => FieldMax_generate call input
  | FieldRound gen =>
      val ← call gen;
      if real_gt val real_0_0 then cast_int (real_add val real_0_5)
      else cast_int (real_sub val real_0_5)
  end.
Proof. destruct g; reflexivity. Qed.

Ltac fold_ptr :=
  change (fun p : FieldGeneratorPtr BoutReal =>
            match p with Some n => header_tree n | None => true end)
    with (@header_tree_ptr BoutReal) in *;
  change (fun p : FieldGeneratorPtr BoutReal =>
            match p with Some n => pointers n | None => [] end)
    with (@pointers_ptr BoutReal) in *;
  change (fun p : FieldGeneratorPtr BoutReal =>
            match p with Some n => well_formed n | None => false end)
    with (@well_formed_ptr BoutReal) in *;
  change (fun p : FieldGeneratorPtr BoutReal =>
            match p with Some n => round_free n | None => true end)
    with (@round_free_ptr BoutReal) in *;
  repeat match goal with
  | |- context [match ?p with Some n => header_tree n | None => true end] =>
      change (match p with Some n => header_tree n | None => true end)
        with (header_tree_ptr p) in *
  | |- context [match ?p with Some n => pointers n | None => [] end] =>
      change (match p with Some n => pointers n | None => [] end)
        with (pointers_ptr p) in *
  | |- context [match ?p with Some n => well_formed n | None => false end] =>
      change (match p with Some n => well_formed n | None => false end)
        with (well_formed_ptr p) in *
  | |- context [match ?p with Some n => round_free n | None => true end] =>
      change (match p with Some n => round_free n | None => true end)
        with (round_free_ptr p) in *
  | H : context [match ?p with Some n => header_tree n | None => true end]
    |- _ => change (match p with Some n => header_tree n | None => true end)
              with (header_tree_ptr p) in H
  | H : context [match ?p with Some n => pointers n | None => [] end]
    |- _ => change (match p with Some n => pointers n | None => [] end)
              with (pointers_ptr p) in H
  | H : context [match ?p with Some n => well_formed n | None => false end]
    |- _ => change (match p with Some n => well_formed n | None => false end)
              with (well_formed_ptr p) in H
  | H : context [match ?p with Some n => round_free n | None => true end]
    |- _ => change (match p with Some n => round_free n | None => true end)
              with (round_free_ptr p) in H
  end.

Lemma frame_at_ptr pos pos' mem mem' p :
  on_child (frame_at pos pos' mem mem') p ->
  header_tree_ptr p = true ->
  (forall ptr, In ptr (pointers_ptr p) -> mem !! ptr = mem' !! ptr) ->
  generate_ptr p pos mem = generate_ptr p pos' mem'.
Proof. destruct p as [n|]; [|reflexivity]. intros IH. exact IH. Qed.

Lemma frame_at_list pos pos' mem mem' input :
  Forall (on_child (frame_at pos pos' mem mem')) input ->
  forallb header_tree_ptr input = true ->
  (forall ptr, In ptr (flat_map pointers_ptr input) ->
               mem !! ptr = mem' !! ptr) ->
  Forall (fun p => generate_ptr p pos mem = generate_ptr p pos' mem') input.
Proof.
  induction 1 as [|p it Hp _ IH]; intros Hh Hmem; [constructor|].
  cbn in Hh, Hmem. apply andb_true_iff in Hh as [Hh1 Hh2]. constructor.
  - apply (frame_at_ptr _ _ _ _ _ Hp Hh1). intros ptr Hin.
    apply Hmem, in_or_app. left. exact Hin.
  - apply (IH Hh2). intros ptr Hin. apply Hmem, in_or_app. right. exact Hin.
Qed.

(** X11. A tree of the classes of which the header defines [generate] reads
    nothing but the cells that its [FieldValuePtr] leaves point to: its value
    is the same at any two positions and in any two memories that agree on
    these cells. *)
Theorem generate_reads_only_its_cells g pos pos' mem mem' :
  header_tree g = true ->
  (forall ptr, In ptr (pointers g) -> mem !! ptr = mem' !! ptr) ->
  generate g pos mem = generate g pos' mem'.
Proof.
  revert g. apply (FieldGenerator_tree_ind (frame_at pos pos' mem mem'));
    [intros ptr|intros gen IH|intros gen IH
    |intros Op gen IH|intros Op A B IHA IHB|intros A B IHA IHB
    |intros gen IH|intros input IH|intros input IH|intros gen IH];
    unfold frame_at; intros Hh Hmem; try discriminate Hh; rewrite !generate_eq;
    cbn in Hh, Hmem |- *; fold_ptr.
  - apply Hmem. left. reflexivity.
  - rewrite (frame_at_ptr _ _ _ _ _ IH Hh Hmem). reflexivity.
  - apply andb_true_iff in Hh as [HhA HhB].
    rewrite (frame_at_ptr _ _ _ _ _ IHA HhA), (frame_at_ptr _ _ _ _ _ IHB HhB);
      [reflexivity| |]; intros ptr Hin; apply Hmem, in_or_app; auto.
  - apply andb_true_iff in Hh as [HhA HhB].
    rewrite (frame_at_ptr _ _ _ _ _ IHA HhA), (frame_at_ptr _ _ _ _ _ IHB HhB);
      [reflexivity| |]; intros ptr Hin; apply Hmem, in_or_app; auto.
  - apply FieldMin_generate_ext, (frame_at_list _ _ _ _ _ IH Hh Hmem).
  - apply FieldMax_generate_ext, (frame_at_list _ _ _ _ _ IH Hh Hmem).
  - rewrite (frame_at_ptr _ _ _ _ _ IH Hh Hmem). reflexivity.
Qed.

Lemma needs_at_ptr pos mem p :
  on_child (needs_at pos mem) p ->
  header_tree_ptr p = true ->
  is_Some (generate_ptr p pos mem) ->
  well_formed_ptr p = true
  /\ Forall (fun ptr => is_Some (mem !! ptr)) (pointers_ptr p).
Proof.
  destruct p as [n|]; [intros IH; exact IH|].
  intros _ _ [v Hv]. discriminate Hv.
Qed.

Lemma needs_at_list pos mem input :
  Forall (on_child (needs_at pos mem)) input ->
  forallb header_tree_ptr input = true ->
  Forall (fun p => is_Some (generate_ptr p pos mem)) input ->
  forallb well_formed_ptr input = true
  /\ Forall (fun ptr => is_Some (mem !! ptr)) (flat_map pointers_ptr input).
Proof.
  induction 1 as [|p it Hp _ IH]; intros Hh Hall.
  - split; [reflexivity|constructor].
  - cbn in Hh. apply andb_true_iff in Hh as [Hh1 Hh2].
    apply Forall_cons in Hall as [Hc Hall].
    destruct (needs_at_ptr _ _ _ Hp Hh1 Hc) as [Hw1 Hl1].
    destruct (IH Hh2 Hall) as [Hw2 Hl2]. cbn. rewrite Hw1, Hw2.
    split; [reflexivity|]. apply Forall_app. split; assumption.
Qed.

Lemma fmap_is_Some_inv {A B : Type} (f : A -> B) (o : option A) :
  is_Some (f <$> o) -> is_Some o.
Proof. destruct o; [eauto|]. intros [v Hv]. discriminate Hv. Qed.

Lemma bind_is_Some_inv {A B : Type} (f : A -> option B) (o : option A) :
  is_Some (o ≫= f) -> exists a, o = Some a /\ is_Some (f a).
Proof. destruct o as [a|]; [eauto|]. intros [v Hv]. discriminate Hv. Qed.

(** X12. What a value needs. When [generate] returns a value on a tree of
    the classes of which the header defines it, no pointer that it
    dereferenced was null, no [FieldMin] or [FieldMax] of the tree is
    without children, and every cell that a [FieldValuePtr] of the tree
    points to is live: no part of the tree is skipped. *)
Theorem generate_needs_the_whole_tree g pos mem :
  header_tree g = true ->
  is_Some (generate g pos mem) ->
  well_formed g = true /\ Forall (fun ptr => is_Some (mem !! ptr)) (pointers g).
Proof.
  revert g. apply (FieldGenerator_tree_ind (needs_at pos mem));
    [intros ptr|intros gen IH|intros gen IH
    |intros Op gen IH|intros Op A B IHA IHB|intros A B IHA IHB
    |intros gen IH|intros input IH|intros input IH|intros gen IH];
    unfold needs_at; intros Hh; try discriminate Hh; rewrite generate_eq;
    cbn in Hh |- *; fold_ptr; intros Hsome.
  - split; [reflexivity|]. constructor; [exact Hsome|constructor].
  - apply fmap_is_Some_inv in Hsome. exact (needs_at_ptr _ _ _ IH Hh Hsome).
  - apply andb_true_iff in Hh as [HhA HhB].
    apply bind_is_Some_inv in Hsome as (a & Ha & Hsome).
    apply bind_is_Some_inv in Hsome as (b & Hb & _).
    destruct (needs_at_ptr _ _ _ IHA HhA) as [HwA HlA]; [rewrite Ha; eauto|].
    destruct (needs_at_ptr _ _ _ IHB HhB) as [HwB HlB]; [rewrite Hb; eauto|].
    rewrite HwA, HwB. split; [reflexivity|]. apply Forall_app.
    split; assumption.
  - apply andb_true_iff in Hh as [HhA HhB]. destruct B as [n|].
    + apply bind_is_Some_inv in Hsome as (a & Ha & Hsome).
      apply bind_is_Some_inv in Hsome as (b & Hb & _).
      destruct (needs_at_ptr _ _ _ IHA HhA) as [HwA HlA]; [rewrite Ha; eauto|].
      destruct (needs_at_ptr _ _ _ IHB HhB) as [HwB HlB]; [rewrite Hb; eauto|].
      cbn in HwB |- *. rewrite HwA, HwB. split; [reflexivity|].
      apply Forall_app. split; assumption.
    + apply fmap_is_Some_inv in Hsome.
      destruct (needs_at_ptr _ _ _ IHA HhA Hsome) as [HwA HlA].
      rewrite HwA. split; [reflexivity|]. cbn. rewrite app_nil_r. exact HlA.
  - apply FieldMin_generate_is_Some in Hsome as [Hne Hall].
    destruct (needs_at_list _ _ _ IH Hh Hall) as [Hw Hl].
    rewrite Hw. split; [|exact Hl]. destruct input; [congruence|reflexivity].
  - apply FieldMax_generate_is_Some in Hsome as [Hne Hall].
    destruct (needs_at_list _ _ _ IH Hh Hall) as [Hw Hl].
    rewrite Hw. split; [|exact Hl]. destruct input; [congruence|reflexivity].
  - apply bind_is_Some_inv in Hsome as (a & Ha & _).
    apply (needs_at_ptr _ _ _ IH Hh). rewrite Ha. eauto.
Qed.

Lemma returns_at_ptr pos mem p :
  on_child (returns_at pos mem) p ->
  header_tree_ptr p = true -> round_free_ptr p = true ->
  well_formed_ptr p = true ->
  Forall (fun ptr => is_Some (mem !! ptr)) (pointers_ptr p) ->
  is_Some (generate_ptr p pos mem).
Proof. destruct p as [n|]; [intros IH; exact IH|discriminate]. Qed.

Lemma returns_at_list pos mem input :
  Forall (on_child (returns_at pos mem)) input ->
  forallb header_tree_ptr input = true ->
  forallb round_free_ptr input = true ->
  forallb well_formed_ptr input = true ->
  Forall (fun ptr => is_Some (mem !! ptr)) (flat_map pointers_ptr input) ->
  Forall (fun p => is_Some (generate_ptr p pos mem)) input.
Proof.
  induction 1 as [|p it Hp _ IH]; intros Hh Hr Hw Hl; [constructor|].
  cbn in Hh, Hr, Hw, Hl.
  apply andb_true_iff in Hh as [Hh1 Hh2].
  apply andb_true_iff in Hr as [Hr1 Hr2].
  apply andb_true_iff in Hw as [Hw1 Hw2]. apply Forall_app in Hl as [Hl1 Hl2].
  constructor; [exact (returns_at_ptr _ _ _ Hp Hh1 Hr1 Hw1 Hl1)|].
  exact (IH Hh2 Hr2 Hw2 Hl2).
Qed.

(** X13. When [generate] returns. On a tree of the classes of which the
    header defines [generate] and without a [FieldRound], the converse
    holds: with no null pointer to dereference, no [FieldMin] or [FieldMax]
    without children and every cell live, [generate] returns a value,
    whatever the numbers are. *)
Theorem generate_returns_on_well_formed_trees g pos mem :
  header_tree g = true -> round_free g = true -> well_formed g = true ->
  Forall (fun ptr => is_Some (mem !! ptr)) (pointers g) ->
  is_Some (generate g pos mem).
Proof.
  revert g. apply (FieldGenerator_tree_ind (returns_at pos mem));
    [intros ptr|intros gen IH|intros gen IH
    |intros Op gen IH|intros Op A B IHA IHB|intros A B IHA IHB
    |intros gen IH|intros input IH|intros input IH|intros gen IH];
    unfold returns_at; intros Hh Hr Hw Hl; try discriminate Hh;
    try discriminate Hr; rewrite generate_eq;
    cbn in Hh, Hr, Hw, Hl |- *; fold_ptr.
  - apply Forall_cons in Hl as [Hl _]. exact Hl.
  - destruct (returns_at_ptr _ _ _ IH Hh Hr Hw Hl) as [v ->]. cbn. eauto.
  - apply andb_true_iff in Hh as [HhA HhB].
    apply andb_true_iff in Hr as [HrA HrB].
    apply andb_true_iff in Hw as [HwA HwB].
    apply Forall_app in Hl as [HlA HlB].
    destruct (returns_at_ptr _ _ _ IHA HhA HrA HwA HlA) as [a ->].
    destruct (returns_at_ptr _ _ _ IHB HhB HrB HwB HlB) as [b ->]. cbn. eauto.
  - apply andb_true_iff in Hh as [HhA HhB].
    apply andb_true_iff in Hr as [HrA HrB].
    apply andb_true_iff in Hw as [HwA HwB].
    apply Forall_app in Hl as [HlA HlB].
    destruct (returns_at_ptr _ _ _ IHA HhA HrA HwA HlA) as [a ->].
    destruct B as [n|]; [|cbn; eauto].
    destruct (returns_at_ptr _ _ _ IHB HhB HrB HwB HlB) as [b ->]. cbn. eauto.
  - apply andb_true_iff in Hw as [Hne Hw].
    apply FieldMin_generate_is_Some. split.
    + destruct input; [discriminate Hne|discriminate].
    + exact (returns_at_list _ _ _ IH Hh Hr Hw Hl).
  - apply andb_true_iff in Hw as [Hne Hw].
    apply FieldMax_generate_is_Some. split.
    + destruct input; [discriminate Hne|discriminate].
    + exact (returns_at_list _ _ _ IH Hh Hr Hw Hl).
Qed.
End TreeFacts.

Lemma generate_reads_only_its_cells_witness :
  header_tree (FieldGenTwoArg PrimFloat.add (cell 0) (cell 1)) = true
  /\ (forall ptr,
         In ptr (pointers (FieldGenTwoArg PrimFloat.add (cell 0) (cell 1))) ->
         cells [3; 1]%float !! ptr = cells [3; 1; 7]%float !! ptr)
  /\ forall libm : CMath float,
       generate (FieldGenTwoArg PrimFloat.add (cell 0) (cell 1)) origin
         (cells [3; 1]%float)
       = generate (FieldGenTwoArg PrimFloat.add (cell 0) (cell 1))
           {| coord_x := 1; coord_y := 2; coord_z := 3; coord_t := 4 |}
           (cells [3; 1; 7]%float).
Proof.
  assert (forall ptr,
             In ptr
               (pointers (FieldGenTwoArg PrimFloat.add (cell 0) (cell 1))) ->
             cells [3; 1]%float !! ptr = cells [3; 1; 7]%float !! ptr) as Hmem.
  { intros ptr [<-|[<-|[]]]; vm_compute; reflexivity. }
  split; [reflexivity|]. split; [exact Hmem|]. intros libm.
  apply (generate_reads_only_its_cells (libm := libm)
           (FieldGenTwoArg PrimFloat.add (cell 0) (cell 1))
           origin {| coord_x := 1; coord_y := 2; coord_z := 3; coord_t := 4 |}
           (cells [3; 1]%float) (cells [3; 1; 7]%float) eq_refl Hmem).
Defined.

Lemma generate_needs_the_whole_tree_witness :
  header_tree (FieldMin [cell (BoutReal := float) 0; cell 1]) = true
  /\ (forall libm : CMath float,
         is_Some (generate (FieldMin [cell 0; cell 1]) origin
                    (cells [3; 1]%float)))
  /\ forall libm : CMath float,
       well_formed (FieldMin [cell (BoutReal := float) 0; cell 1]) = true
       /\ Forall (fun ptr => is_Some (cells [3; 1]%float !! ptr))
            (pointers (FieldMin [cell (BoutReal := float) 0; cell 1])).
Proof.
  assert (forall libm : CMath float,
             is_Some (generate (FieldMin [cell 0; cell 1]) origin
                        (cells [3; 1]%float))) as Hsome.
  { intros libm. exists 1%float. vm_compute. reflexivity. }
  split; [reflexivity|]. split; [exact Hsome|]. intros libm.
  apply (generate_needs_the_whole_tree (libm := libm)
           (FieldMin [cell 0; cell 1]) origin (cells [3; 1]%float) eq_refl
           (Hsome libm)).
Defined.

Lemma generate_returns_on_well_formed_trees_witness :
  header_tree (FieldATan (cell (BoutReal := float) 0) nullptr) = true
  /\ round_free (FieldATan (cell (BoutReal := float) 0) nullptr) = true
  /\ well_formed (FieldATan (cell (BoutReal := float) 0) nullptr) = true
  /\ Forall (fun ptr => is_Some (cells [3]%float !! ptr))
       (pointers (FieldATan (cell (BoutReal := float) 0) nullptr))
  /\ forall libm : CMath float,
       is_Some (generate (FieldATan (cell 0) nullptr) origin
                  (cells [3]%float)).
Proof.
  assert (Forall (fun ptr => is_Some (cells [3]%float !! ptr))
            (pointers (FieldATan (cell (BoutReal := float) 0) nullptr)))
    as Hlive.
  { constructor; [exists 3%float; reflexivity|constructor]. }
  split; [reflexivity|]. split; [reflexivity|]. split; [reflexivity|].
  split; [exact Hlive|]. intros libm.
  apply (generate_returns_on_well_formed_trees (libm := libm)
           (FieldATan (cell 0) nullptr) origin (cells [3]%float)
           eq_refl eq_refl eq_refl Hlive).
Defined.
